(** * Automerge repo sync worker: storage adapter and WebSocket relay

    A shallow embedding of [R2StorageAdapter] (key flattening, range load and
    range delete over a prefix-addressable blob store) and of
    [CloudflareWebSocketAdapter] (connection registry, join/peer handshake,
    unicast and broadcast routing, readiness flag), with the properties the
    specification states about them. *)

From Stdlib Require Import Ascii String.
From stdpp Require Import base option list strings gmap fin_maps pretty.

(** ** JavaScript string primitives used by the storage adapter

    A character of a [string] stands for one code unit of a JavaScript
    string; the separator ['/'] is a single code unit. *)

Module Js.

(** [Array.prototype.join(sep)]: the empty array gives the empty string, a
    singleton gives its element, otherwise the elements are interleaved
    with [sep]. *)
Fixpoint join (sep : string) (xs : list string) : string :=
  match xs with
  | [] => ""
  | [x] => x
  | x :: rest => x +:+ sep +:+ join sep rest
  end.

(** [String.prototype.split(c)] for a one-character separator [c]: the
    result always has at least one element, and [n] occurrences of [c]
    give [n + 1] pieces. *)
Fixpoint split (c : ascii) (s : string) : list string :=
  match s with
  | EmptyString => [""]
  | String a s' =>
      if Ascii.eqb a c then "" :: split c s'
      else match split c s' with
           | [] => [String a ""]
           | piece :: pieces => String a piece :: pieces
           end
  end.

(** [String.prototype.endsWith(c)] for a one-character argument. *)
Fixpoint endsWith (c : ascii) (s : string) : bool :=
  match s with
  | EmptyString => false
  | String a EmptyString => Ascii.eqb a c
  | String _ s' => endsWith c s'
  end.

(** [String.prototype.startsWith(p)]. *)
Definition startsWith (p s : string) : bool := String.prefix p s.

(** A segment is free of the character [c]. *)
Fixpoint lacks (c : ascii) (s : string) : bool :=
  match s with
  | EmptyString => true
  | String a s' => negb (Ascii.eqb a c) && lacks c s'
  end.

End Js.

(** ** R2StorageAdapter *)

Definition StorageKey := list string.

Definition sep : ascii := "/"%char.

(** [keyToString]: [key.join('/')]. *)
Definition keyToString (key : StorageKey) : string := Js.join "/" key.

(** [stringToKey]: [key.split('/')]. *)
Definition stringToKey (key : string) : StorageKey := Js.split sep key.

(** The keys the specification calls valid: no segment contains ['/']. *)
Definition separatorFree (key : StorageKey) : Prop :=
  Forall (fun seg => Js.lacks sep seg = true) key.

(** *** The blob store behind the adapter *)

(** [Uint8Array]. *)
Abbreviation bytes := (list Byte.byte).

(** Modelled from the spec: the [R2Bucket] binding is the platform's blob
    store, not code of this repository.  The storage boundary of the
    specification gives it four operations, [get(flatKey) -> object|absent],
    [put(flatKey, bytes)], [delete(flatKey)] and [list(prefix) -> sequence of
    flatKey]; a bucket is a finite map from flat keys to blobs. *)
Abbreviation R2Bucket := (gmap string bytes).

Definition bucket_get (bucket : R2Bucket) (objectKey : string) : option bytes :=
  bucket !! objectKey.

Definition bucket_put (bucket : R2Bucket) (objectKey : string) (data : bytes)
  : R2Bucket := <[objectKey := data]> bucket.

Definition bucket_delete (bucket : R2Bucket) (objectKey : string) : R2Bucket :=
  delete objectKey bucket.

(** The keys of a bucket in the order the store lists them, each key once.
    The order is the store's own; which one it is decides which keys come
    first, and nothing proved below depends on it. *)
Definition bucket_keys (bucket : R2Bucket) : list string :=
  (map_to_list bucket).*1.

(** Every stored key that starts with [prefix], in listing order: what
    following the listing to its end would give. *)
Definition bucket_matching (bucket : R2Bucket) (prefix : string) : list string :=
  filter (λ objectKey, Is_true (Js.startsWith prefix objectKey))
         (bucket_keys bucket).

(** One call of [list] answers with one page.  The options the adapter
    passes name a [prefix] and no [limit], and the store then returns at most
    1000 keys. *)
Definition page_limit : nat := 1000.

(** The answer of one [list] call: the objects of the page, and in
    [truncated] whether matching keys are left behind it, to be asked for
    with a cursor. *)
Record R2Objects := { objects : list string; truncated : bool }.

Definition bucket_list (bucket : R2Bucket) (prefix : string) : R2Objects :=
  let matching := bucket_matching bucket prefix in
  {| objects := take page_limit matching;
     truncated := bool_decide (page_limit < length matching) |}.

(** *** The adapter's operations

    Every method awaits the store call by call; the bucket is threaded
    through explicitly. *)

(** A [Chunk]: the key and the payload, [None] for [undefined]. *)
Record Chunk := { key : StorageKey; data : option bytes }.

Definition load (bucket : R2Bucket) (key : StorageKey) : option bytes :=
  let objectKey := keyToString key in
  bucket_get bucket objectKey.

Definition save (bucket : R2Bucket) (key : StorageKey) (data : bytes) : R2Bucket :=
  let objectKey := keyToString key in
  bucket_put bucket objectKey data.

Definition remove (bucket : R2Bucket) (key : StorageKey) : R2Bucket :=
  let objectKey := keyToString key in
  bucket_delete bucket objectKey.

(** The [prefix] field of the [R2ListOptions] built by [loadRange] and
    [removeRange]: [prefix + (prefix.endsWith('/') ? '' : '/')]. *)
Definition listOptions (keyPrefix : StorageKey) : string :=
  let prefix := keyToString keyPrefix in
  prefix +:+ (if Js.endsWith sep prefix then "" else "/").

(** [loadRange] makes one [list] call and walks [objects.objects]; it does
    not read [truncated]. *)
Definition loadRange (bucket : R2Bucket) (keyPrefix : StorageKey) : list Chunk :=
  let listed := bucket_list bucket (listOptions keyPrefix) in
  (λ objectKey,
     let key := stringToKey objectKey in
     let data := load bucket key in
     {| key := key; data := data |}) <$> objects listed.

(** [removeRange], likewise: one [list] call, one [delete] per listed
    object. *)
Definition removeRange (bucket : R2Bucket) (keyPrefix : StorageKey) : R2Bucket :=
  let listed := bucket_list bucket (listOptions keyPrefix) in
  foldl bucket_delete bucket (objects listed).

(** A run of [save] calls, oldest first. *)
Definition saveAll (bucket : R2Bucket) (writes : list (StorageKey * bytes))
  : R2Bucket := foldl (λ b w, save b w.1 w.2) bucket writes.

(** The flattened form of a key matches the listing prefix of [keyPrefix]. *)
Definition matches (keyPrefix : StorageKey) (objectKey : string) : Prop :=
  Is_true (Js.startsWith (listOptions keyPrefix) objectKey).

(** A bucket with [n] empty objects, saved under [["big", "0"]],
    [["big", "1"]], and so on. *)
Definition big_bucket (n : nat) : R2Bucket :=
  saveAll ∅ ((λ i, (["big"; pretty i], [])) <$> seq 0 n).

(** ** CloudflareWebSocketAdapter *)

(** [PeerId] is a branded JavaScript string. *)
Definition PeerId := string.

(** JavaScript truthiness of a string: only the empty string is falsy. *)
Definition truthy (s : string) : bool :=
  match s with
  | EmptyString => false
  | String _ _ => true
  end.

(** Truthiness of a value that may also be [null] or [undefined]. *)
Definition truthy_opt (o : option string) : bool :=
  match o with
  | Some s => truthy s
  | None => false
  end.

(** A transport handle.  The adapter keys its registry on the identity of the
    [WebSocket] object; a number stands for that identity. *)
Definition WebSocket := nat.

(** [ws.readyState]. *)
Inductive ReadyState := CONNECTING | READY_STATE_OPEN | CLOSING | CLOSED.

Global Instance ReadyState_eq_dec : EqDecision ReadyState.
Proof. solve_decision. Defined.

(** The transport side of the world as the adapter reads it: the
    [readyState] of every handle at the time of the call. *)
Definition Transports := WebSocket → ReadyState.

(** What the adapter imports from [@automerge/automerge-repo] without looking
    inside: the metadata object of a peer, with the empty object [{}], and
    the [Message] type, of which only [(message as any).targetId] is read
    ([None] when the field is [undefined]). *)
Class Protocol := {
  PeerMetadata : Type;
  emptyObject : PeerMetadata;
  Message : Type;
  targetId : Message → option PeerId;
}.

(** *** JavaScript [Map]: insertion-ordered, keys unique *)

Section JsMap.
Context {V : Type}.

Fixpoint Map_get (k : WebSocket) (m : list (WebSocket * V)) : option V :=
  match m with
  | [] => None
  | (k', v) :: m' => if decide (k' = k) then Some v else Map_get k m'
  end.

(** [set] keeps the position of a key that is already present and appends
    a new key at the end. *)
Fixpoint Map_set (k : WebSocket) (v : V) (m : list (WebSocket * V))
  : list (WebSocket * V) :=
  match m with
  | [] => [(k, v)]
  | (k', v') :: m' =>
      if decide (k' = k) then (k', v) :: m' else (k', v') :: Map_set k v m'
  end.

Definition Map_delete (k : WebSocket) (m : list (WebSocket * V))
  : list (WebSocket * V) :=
  filter (λ e, e.1 ≠ k) m.

Definition Map_size (m : list (WebSocket * V)) : nat := length m.
End JsMap.

Section Relay.
Context {protocol : Protocol}.

Record WebSocketConnection := {
  ws : WebSocket;
  peerId : option PeerId;               (* PeerId | null *)
  peerMetadata : option PeerMetadata;   (* PeerMetadata | undefined *)
}.

Record JoinMessage := {
  join_senderId : PeerId;
  join_peerMetadata : option PeerMetadata;
  supportedProtocolVersions : list string;
}.

Record PeerMessage := {
  peer_senderId : PeerId;
  peer_peerMetadata : option PeerMetadata;
  peer_targetId : PeerId;
  selectedProtocolVersion : string;
}.

(** The result of [cbor.decode(buffer) as JoinMessage | Message].  The cast
    checks nothing: the value may be [null] or [undefined] ([Nullish]), on
    which reading [decoded.type] throws; on every other value the
    constructor records whether [decoded.type === 'join']. *)
Inductive Decoded :=
| Join (joinMsg : JoinMessage)
| Other (message : Message)
| Nullish.

(** The values the adapter passes to [cbor.encode]. *)
Inductive Encodable :=
| EncPeer (peerMessage : PeerMessage)
| EncMessage (message : Message).

(** [cbor] and [TextEncoder] are library code; [cbor_decode] gives [None]
    where [cbor.decode] throws. *)
Class Cbor := {
  cbor_decode : bytes → option Decoded;
  cbor_encode : Encodable → bytes;
  utf8 : string → bytes;
}.

(** Events the adapter emits to its listeners (the repo). *)
Inductive Event :=
| PeerCandidate (peerId : PeerId) (peerMetadata : PeerMetadata)
| MessageEvent (message : Message)
| CloseEvent.

(** Calls that leave the adapter, in the order they are made: [ws.send],
    [ws.close], [this.emit] and [console.error].  What happens behind them
    (the transport, the listeners) is outside the adapter; the calls return
    normally. *)
Inductive Effect :=
| WsSend (ws : WebSocket) (encoded : bytes)
| WsClose (ws : WebSocket)
| Emit (e : Event)
| ConsoleError.

(** The fields of the adapter object; [this_peerId] and
    [this_peerMetadata] are [this.peerId] and [this.peerMetadata] of the
    [NetworkAdapter] base class, [None] while [undefined]. *)
Record Adapter := {
  connections : list (WebSocket * WebSocketConnection);
  isConnected : bool;
  this_peerId : option PeerId;
  this_peerMetadata : option PeerMetadata;
}.

(** The adapter right after [new CloudflareWebSocketAdapter()]. *)
Definition new : Adapter :=
  {| connections := []; isConnected := false;
     this_peerId := None; this_peerMetadata := None |}.

(** *** Method bodies as computations

    A method runs on the adapter, may change it, makes outside calls and
    completes normally or by throwing. *)
Inductive Completion (A : Type) :=
| Normal (a : A)
| Throw.
Global Arguments Normal {A} a.
Global Arguments Throw {A}.

Definition M (A : Type) : Type := Adapter → Completion A * Adapter * list Effect.

Global Instance M_ret : MRet M := λ A a this, (Normal a, this, []).

Global Instance M_bind : MBind M := λ A B f m this,
  match m this with
  | (Normal a, this', out) =>
      match f a this' with
      | (r, this'', out') => (r, this'', out ++ out')
      end
  | (Throw, this', out) => (Throw, this', out)
  end.

Definition get : M Adapter := λ this, (Normal this, this, []).
Definition modify (f : Adapter → Adapter) : M unit := λ this, (Normal (), f this, []).
Definition call (e : Effect) : M unit := λ this, (Normal (), this, [e]).
Definition throw {A} : M A := λ this, (Throw, this, []).

(** [try { body } catch (error) { handler }]: what [body] did before it
    threw stays done. *)
Definition try_catch (body handler : M unit) : M unit := λ this,
  match body this with
  | (Normal a, this', out) => (Normal a, this', out)
  | (Throw, this', out) =>
      match handler this' with
      | (r, this'', out') => (r, this'', out ++ out')
      end
  end.

Definition when (b : bool) (m : M unit) : M unit := if b then m else mret ().

Definition set_connections (f : list (WebSocket * WebSocketConnection) →
                                list (WebSocket * WebSocketConnection))
  : M unit :=
  modify (λ this,
    {| connections := f (connections this); isConnected := isConnected this;
       this_peerId := this_peerId this;
       this_peerMetadata := this_peerMetadata this |}).

Definition set_isConnected (b : bool) : M unit :=
  modify (λ this,
    {| connections := connections this; isConnected := b;
       this_peerId := this_peerId this;
       this_peerMetadata := this_peerMetadata this |}).

Definition set_identity (id : PeerId) (metadata : option PeerMetadata) : M unit :=
  modify (λ this,
    {| connections := connections this; isConnected := isConnected this;
       this_peerId := Some id; this_peerMetadata := metadata |}).

(** *** The methods *)

Definition addConnection (ws : WebSocket) : M unit :=
  set_connections
    (Map_set ws {| ws := ws; peerId := None; peerMetadata := None |}).

Definition removeConnection (ws : WebSocket) : M unit :=
  set_connections (Map_delete ws);;
  this ← get;
  when (Map_size (connections this) =? 0) (set_isConnected false).

(** [connection.peerId = joinMsg.senderId;
     connection.peerMetadata = joinMsg.peerMetadata]. *)
Definition record_join (connection : WebSocketConnection) (joinMsg : JoinMessage)
  : WebSocketConnection :=
  {| ws := ws connection;
     peerId := Some (join_senderId joinMsg);
     peerMetadata := join_peerMetadata joinMsg |}.

Context {cbor : Cbor}.

(** The [Uint8Array] made of a [string | ArrayBuffer] message. *)
Definition buffer_of (message : string + bytes) : bytes :=
  match message with
  | inl text => utf8 text
  | inr buffer => buffer
  end.

(** [message] is [string | ArrayBuffer]. *)
Definition handleMessage (ws : WebSocket) (message : string + bytes) : M unit :=
  this ← get;
  match Map_get ws (connections this) with
  | None => mret ()
  | Some connection =>
      try_catch
        (let buffer := buffer_of message in
         decoded ← match cbor_decode buffer with
                   | Some decoded => mret decoded
                   | None => throw
                   end;
         match decoded with
         | Join joinMsg =>
             (* the record in the map is the object [connection] *)
             set_connections (Map_set ws (record_join connection joinMsg));;
             this ← get;
             match this_peerId this with
             | Some selfId =>
                 when (truthy selfId)
                   (let peerMessage :=
                      {| peer_senderId := selfId;
                         peer_peerMetadata := this_peerMetadata this;
                         peer_targetId := join_senderId joinMsg;
                         selectedProtocolVersion := "1" |} in
                    let encoded := cbor_encode (EncPeer peerMessage) in
                    call (WsSend ws encoded))
             | None => mret ()
             end;;
             call (Emit (PeerCandidate (join_senderId joinMsg)
                           (default emptyObject (join_peerMetadata joinMsg))))
         | Other message => call (Emit (MessageEvent message))
         | Nullish => throw
         end)
        (call ConsoleError);;
      this ← get;
      when (negb (isConnected this) && truthy_opt (this_peerId this)
            && (0 <? Map_size (connections this)))
        (set_isConnected true)
  end.

Definition connect (peerId : PeerId) (peerMetadata : option PeerMetadata) : M unit :=
  set_identity peerId peerMetadata;;
  this ← get;
  when (0 <? Map_size (connections this)) (set_isConnected true).

(** The unicast loop of [send]: the first entry that passes the test gets
    the frame and the method returns. *)
Fixpoint send_to (readyState : Transports) (message : Message) (target : PeerId)
    (entries : list (WebSocket * WebSocketConnection)) : M unit :=
  match entries with
  | [] => mret ()
  | (ws, connection) :: rest =>
      if bool_decide (peerId connection = Some target)
         && bool_decide (readyState ws = READY_STATE_OPEN)
      then
        let encoded := cbor_encode (EncMessage message) in
        call (WsSend ws encoded)
      else send_to readyState message target rest
  end.

(** The broadcast loop of [send]. *)
Fixpoint send_all (readyState : Transports) (encoded : bytes)
    (entries : list (WebSocket * WebSocketConnection)) : M unit :=
  match entries with
  | [] => mret ()
  | (ws, connection) :: rest =>
      when (truthy_opt (peerId connection)
            && bool_decide (readyState ws = READY_STATE_OPEN))
        (call (WsSend ws encoded));;
      send_all readyState encoded rest
  end.

Definition send (readyState : Transports) (message : Message) : M unit :=
  this ← get;
  let target := targetId message in
  if truthy_opt target then
    match target with
    | Some target => send_to readyState message target (connections this)
    | None => mret ()
    end
  else
    let encoded := cbor_encode (EncMessage message) in
    send_all readyState encoded (connections this).

Fixpoint close_all (readyState : Transports)
    (entries : list (WebSocket * WebSocketConnection)) : M unit :=
  match entries with
  | [] => mret ()
  | (ws, _) :: rest =>
      when (bool_decide (readyState ws = READY_STATE_OPEN)) (call (WsClose ws));;
      close_all readyState rest
  end.

Definition disconnect (readyState : Transports) : M unit :=
  this ← get;
  close_all readyState (connections this);;
  set_connections (λ _, []);;
  set_isConnected false;;
  call (Emit CloseEvent).

Definition isReady (this : Adapter) : bool :=
  isConnected this && bool_decide (this_peerId this ≠ None).

(** The flag is only ever set with a connection present and an identity
    bound. *)
Definition flag_sound (this : Adapter) : Prop :=
  isConnected this = true → connections this ≠ [] ∧ this_peerId this ≠ None.

(** The outside calls of [handleMessage] for a join frame. *)
Definition join_calls (this : Adapter) (ws : WebSocket) (joinMsg : JoinMessage) : list Effect :=
  match this_peerId this with
  | Some selfId =>
      if truthy selfId then
        [WsSend ws (cbor_encode (EncPeer
           {| peer_senderId := selfId;
              peer_peerMetadata := this_peerMetadata this;
              peer_targetId := join_senderId joinMsg;
              selectedProtocolVersion := "1" |}))]
      else []
  | None => []
  end
  ++ [Emit (PeerCandidate (join_senderId joinMsg)
              (default emptyObject (join_peerMetadata joinMsg)))].

(** *** Sequences of calls on one adapter *)

Inductive Op :=
| AddConnection (ws : WebSocket)
| RemoveConnection (ws : WebSocket)
| HandleMessage (ws : WebSocket) (message : string + bytes)
| Connect (peerId : PeerId) (peerMetadata : option PeerMetadata)
| Send (readyState : Transports) (message : Message)
| Disconnect (readyState : Transports).

Definition run_op (op : Op) : M unit :=
  match op with
  | AddConnection ws => addConnection ws
  | RemoveConnection ws => removeConnection ws
  | HandleMessage ws message => handleMessage ws message
  | Connect peerId peerMetadata => connect peerId peerMetadata
  | Send readyState message => send readyState message
  | Disconnect readyState => disconnect readyState
  end.

Fixpoint run (ops : list Op) : M unit :=
  match ops with
  | [] => mret ()
  | op :: ops => run_op op;; run ops
  end.

(** The adapter and the outside calls after [m] ran on [this]. *)
Definition state_after {A} (m : M A) (this : Adapter) : Adapter := (m this).1.2.
Definition calls_of {A} (m : M A) (this : Adapter) : list Effect := (m this).2.
Definition completion_of {A} (m : M A) (this : Adapter) : Completion A := (m this).1.1.

(** The identity recorded for the connection of [ws]: [None] when the
    handle is not registered or its [peerId] is still [null]. *)
Definition identity_of (ws : WebSocket) (this : Adapter) : option PeerId :=
  Map_get ws (connections this) ≫= peerId.

End Relay.

(** *** A small wire format for worked examples

    Metadata is a list of attributes and a message is its target and its
    body.  On the wire the first byte is the frame type: [00] a join frame
    followed by the sender id, [01] a message without target followed by its
    body, [02] a message followed by its target id, [f6] the value [null];
    anything else does not decode. *)

Definition sample_protocol : Protocol :=
  {| PeerMetadata := list (string * string);
     emptyObject := [];
     Message := option PeerId * bytes;
     targetId := fst |}.

Definition sample_message (target : option PeerId) (body : bytes)
  : @Message sample_protocol := (target, body).

Definition sample_decode (buffer : bytes) : option (@Decoded sample_protocol) :=
  match buffer with
  | Byte.x00 :: id =>
      Some (Join {| join_senderId := string_of_list_byte id;
                    join_peerMetadata := None;
                    supportedProtocolVersions := ["1"] |})
  | Byte.x01 :: body => Some (Other (sample_message None body))
  | Byte.x02 :: id =>
      Some (Other (sample_message (Some (string_of_list_byte id)) []))
  | Byte.xf6 :: _ => Some Nullish
  | _ => None
  end.

Definition sample_encode (value : @Encodable sample_protocol) : bytes :=
  match value with
  | EncPeer peerMessage =>
      Byte.x03 :: list_byte_of_string (peer_senderId peerMessage)
      ++ Byte.x2f :: list_byte_of_string (peer_targetId peerMessage)
  | EncMessage (None, body) => Byte.x01 :: body
  | EncMessage (Some id, _) => Byte.x02 :: list_byte_of_string id
  end.

Definition sample_cbor : @Cbor sample_protocol :=
  {| cbor_decode := sample_decode;
     cbor_encode := sample_encode;
     utf8 := list_byte_of_string |}.

(** Join frames of peers ["A"], ["B"] and of a peer with the empty id. *)
Definition joinA : string + bytes := inr [Byte.x00; Byte.x41].
Definition joinB : string + bytes := inr [Byte.x00; Byte.x42].
Definition joinEmpty : string + bytes := inr [Byte.x00].

(** Every transport open. *)
Definition all_open : Transports := λ _, READY_STATE_OPEN.

(** Adapters used in the worked examples: one peer joined as ["A"]; two
    peers joined as ["A"] and ["B"]; one peer joined with the empty id; one
    connection registered on a relay bound to the empty id. *)
Definition one_joined : @Adapter sample_protocol :=
  state_after (run (cbor := sample_cbor) [AddConnection 1; HandleMessage 1 joinA]) new.

Definition two_joined : @Adapter sample_protocol :=
  state_after
    (run (cbor := sample_cbor) [AddConnection 1; HandleMessage 1 joinA;
          AddConnection 2; HandleMessage 2 joinB]) new.

Definition joined_empty : @Adapter sample_protocol :=
  state_after (run (cbor := sample_cbor) [AddConnection 1; HandleMessage 1 joinEmpty]) new.

Definition bound_empty : @Adapter sample_protocol :=
  state_after (run (cbor := sample_cbor) [AddConnection 1; Connect "" None]) new.

(** Unfolds the monadic plumbing of a method body. *)
Ltac run_method :=
  unfold state_after, calls_of, completion_of, identity_of,
    handleMessage, addConnection, removeConnection, connect, send, disconnect,
    set_connections, set_isConnected, set_identity,
    try_catch, when, call, throw, modify, get,
    mbind, M_bind, mret, M_ret in *;
  simpl in *.


(** *** The registry as a JavaScript [Map] keeps it

    Handles are unique keys and every record carries the handle it is
    stored under. *)
Definition registry_ok {protocol : Protocol} (this : Adapter) : Prop :=
  NoDup (connections this).*1
  ∧ Forall (λ e, ws e.2 = e.1) (connections this).

(** ** SyncServer

    The Durable Object that owns one repo and one adapter and feeds the
    adapter from the runtime's WebSocket events. *)

(** [String.prototype.toLowerCase] is the runtime's. *)
Class JsString := { toLowerCase : string → string }.

(** What [fetch] reads of a request: [request.headers.get('Upgrade')] and
    [url.searchParams.get('ws')], [None] for [null]. *)
Record Request := {
  upgradeHeader : option string;
  wsParam : option string;
}.

(** A [Response]: status, body and content type, and the client side of the
    pair for an upgrade. *)
Record Response := {
  status : nat;
  body : option string;
  contentType : option string;
  webSocket : option WebSocket;
}.

(** The [Repo] object is the library's; the server only holds it.  What the
    repo does with the adapter it was given arrives as later calls. *)
Inductive Repo := RepoObject.

Section Server.
Context {protocol : Protocol} {cbor : Cbor} {js : JsString}.

(** The fields [repo] and [adapter], [None] for [null]. *)
Record SyncServer := {
  repo : option Repo;
  adapter : option Adapter;
}.

(** The Durable Object in its runtime: [sockets] counts the [WebSocket]
    objects created so far, so that [new WebSocketPair()] yields two handles
    no one holds yet. *)
Record Host := {
  object : SyncServer;
  sockets : nat;
}.

(** The object right after its constructor ran. *)
Definition fresh_host : Host :=
  {| object := {| repo := None; adapter := None |}; sockets := 0 |}.

(** Calls that leave the server, in order; [FromAdapter] wraps the calls the
    adapter makes while the server runs one of its methods. *)
Inductive HostCall :=
| AcceptWebSocket (server : WebSocket)
| ConstructRepo
| FromAdapter (e : Effect)
| CloseWith (ws : WebSocket) (code : nat) (reason : string)
| ServerConsoleError.

Definition SM (A : Type) : Type := Host → Completion A * Host * list HostCall.

Global Instance SM_ret : MRet SM := λ A a host, (Normal a, host, []).

Global Instance SM_bind : MBind SM := λ A B f m host,
  match m host with
  | (Normal a, host', out) =>
      match f a host' with
      | (r, host'', out') => (r, host'', out ++ out')
      end
  | (Throw, host', out) => (Throw, host', out)
  end.

Definition this_object : SM SyncServer := λ host, (Normal (object host), host, []).

Definition set_object (f : SyncServer → SyncServer) : SM unit := λ host,
  (Normal (), {| object := f (object host); sockets := sockets host |}, []).

Definition host_call (c : HostCall) : SM unit := λ host, (Normal (), host, [c]).

Definition host_throw {A} : SM A := λ host, (Throw, host, []).

(** [new WebSocketPair()] and [Object.values] of it: [client, server]. *)
Definition newWebSocketPair : SM (WebSocket * WebSocket) := λ host,
  (Normal (sockets host, S (sockets host)),
   {| object := object host; sockets := S (S (sockets host)) |}, []).

(** A method call [this.adapter.m(...)]: runs [m] on the adapter the field
    holds; on [null] the call throws. *)
Definition on_adapter {A} (m : M A) : SM A := λ host,
  match adapter (object host) with
  | Some a =>
      match m a with
      | (r, a', out) =>
          (r,
           {| object := {| repo := repo (object host); adapter := Some a' |};
              sockets := sockets host |},
           FromAdapter <$> out)
      end
  | None => (Throw, host, [])
  end.

(** [initializeRepo]; the storage adapter it builds for the repo holds no
    state of its own. *)
Definition initializeRepo : SM Repo :=
  this ← this_object;
  match repo this with
  | Some repo => mret repo
  | None =>
      set_object (λ this, {| repo := repo this; adapter := Some new |});;
      host_call ConstructRepo;;
      set_object (λ this, {| repo := Some RepoObject; adapter := adapter this |});;
      mret RepoObject
  end.

Definition handleWebSocket (request : Request) : SM Response :=
  pair ← newWebSocketPair;
  let client := pair.1 in
  let server := pair.2 in
  host_call (AcceptWebSocket server);;
  _ ← initializeRepo;
  this ← this_object;
  match adapter this with
  | None => host_throw
  | Some _ =>
      on_adapter (addConnection server);;
      mret {| status := 101; body := None; contentType := None;
              webSocket := Some client |}
  end.

(** [request.headers.get('Upgrade')?.toLowerCase() === 'websocket'
     || url.searchParams.get('ws') !== null]. *)
Definition wantsWebSocket (request : Request) : bool :=
  bool_decide (toLowerCase <$> upgradeHeader request = Some "websocket")
  || bool_decide (wsParam request ≠ None).

Definition fetch (request : Request) : SM Response :=
  if wantsWebSocket request then handleWebSocket request
  else mret {| status := 200; body := Some "Automerge Repo Sync Server";
               contentType := Some "text/plain"; webSocket := None |}.

Definition webSocketMessage (ws : WebSocket) (message : string + bytes) : SM unit :=
  this ← this_object;
  match adapter this with
  | Some _ => on_adapter (handleMessage ws message)
  | None => mret ()
  end.

Definition webSocketClose (ws : WebSocket) (code : nat) (reason : string)
    (wasClean : bool) : SM unit :=
  this ← this_object;
  match adapter this with
  | Some _ => on_adapter (removeConnection ws)
  | None => mret ()
  end;;
  host_call (CloseWith ws code reason).

Definition webSocketError (ws : WebSocket) : SM unit :=
  host_call ServerConsoleError.

(** *** What happens to a server over its life

    Requests and WebSocket events from the runtime, and the three methods
    the adapter's comments give to the repo ([connect], [send],
    [disconnect]), which the repo can call once it exists. *)
Inductive HostEvent :=
| Fetch (request : Request)
| WebSocketMessage (ws : WebSocket) (message : string + bytes)
| WebSocketClose (ws : WebSocket) (code : nat) (reason : string) (wasClean : bool)
| WebSocketError (ws : WebSocket)
| RepoConnect (peerId : PeerId) (peerMetadata : option PeerMetadata)
| RepoSend (readyState : Transports) (message : Message)
| RepoDisconnect (readyState : Transports).

Definition by_repo (m : M unit) : SM unit :=
  this ← this_object;
  match repo this with
  | Some _ => on_adapter m
  | None => mret ()
  end.

Definition host_step (event : HostEvent) : SM unit :=
  match event with
  | Fetch request => fetch request ≫= λ _, mret ()
  | WebSocketMessage ws message => webSocketMessage ws message
  | WebSocketClose ws code reason wasClean => webSocketClose ws code reason wasClean
  | WebSocketError ws => webSocketError ws
  | RepoConnect peerId peerMetadata => by_repo (connect peerId peerMetadata)
  | RepoSend readyState message => by_repo (send readyState message)
  | RepoDisconnect readyState => by_repo (disconnect readyState)
  end.

Fixpoint host_run (events : list HostEvent) : SM unit :=
  match events with
  | [] => mret ()
  | event :: events => host_step event;; host_run events
  end.

(** The registry the server's adapter holds, empty while there is none. *)
Definition registry (host : Host) : list (WebSocket * WebSocketConnection) :=
  match adapter (object host) with
  | Some a => connections a
  | None => []
  end.

(** The adapter an upgrade registers the new connection on: the one the
    server holds, or a new one. *)
Definition adapter_or_new (host : Host) : Adapter := default new (adapter (object host)).

(** The server, the calls and the completion after [m] ran on [host]. *)
Definition host_after {A} (m : SM A) (host : Host) : Host := (m host).1.2.
Definition host_calls {A} (m : SM A) (host : Host) : list HostCall := (m host).2.
Definition host_completion {A} (m : SM A) (host : Host) : Completion A := (m host).1.1.

(** What the server keeps true: the repo and the adapter exist together; the
    runtime has made whole pairs only; every registered handle is the server
    side of one of them; and the adapter's registry and flag are sound. *)
Definition host_ok (host : Host) : Prop :=
  (repo (object host) = None ↔ adapter (object host) = None)
  ∧ Nat.even (sockets host) = true
  ∧ Forall (λ h, Nat.odd h = true ∧ h < sockets host) (registry host).*1
  ∧ match adapter (object host) with
    | Some a => registry_ok a ∧ flag_sound a
    | None => True
    end.

End Server.

(** ASCII lowering, for the worked examples. *)
Definition ascii_lower (a : ascii) : ascii :=
  let n := nat_of_ascii a in
  if (65 <=? n) && (n <=? 90) then ascii_of_nat (n + 32) else a.

Fixpoint string_lower (s : string) : string :=
  match s with
  | EmptyString => EmptyString
  | String a s' => String (ascii_lower a) (string_lower s')
  end.

Definition sample_js : JsString := {| toLowerCase := string_lower |}.

(** * Properties *)

Example keyToString_doc : keyToString ["doc1"; "snapshot"; "h"] = "doc1/snapshot/h".
Proof. reflexivity. Qed.

Example stringToKey_doc : stringToKey "doc1/snapshot/h" = ["doc1"; "snapshot"; "h"].
Proof. reflexivity. Qed.

Example stringToKey_empty : stringToKey "" = [""].
Proof. reflexivity. Qed.

(** *** Facts about [join] and [split] *)

Lemma split_nonempty c s : Js.split c s ≠ [].
Proof.
  destruct s as [|a s]; simpl; [done|].
  destruct (Ascii.eqb a c); [done|]. by destruct (Js.split c s).
Qed.

Lemma split_lacks c s : Js.lacks c s = true → Js.split c s = [s].
Proof.
  induction s as [|a s IH]; simpl; [done|].
  intros [Ha Hs]%andb_true_iff. apply negb_true_iff in Ha.
  rewrite Ha, (IH Hs). done.
Qed.

Lemma split_app_sep c s t :
  Js.lacks c s = true →
  Js.split c (s +:+ String c t) = s :: Js.split c t.
Proof.
  induction s as [|a s IH]; simpl.
  - intros _. by rewrite Ascii.eqb_refl.
  - intros [Ha Hs]%andb_true_iff. apply negb_true_iff in Ha.
    rewrite Ha, (IH Hs). done.
Qed.

(** Joining what [split] produced always gives the string back. *)
Lemma join_split s : Js.join "/" (Js.split sep s) = s.
Proof.
  induction s as [|a s IH]; simpl; [done|].
  destruct (Ascii.eqb_spec a sep) as [->|Hne].
  - pose proof (split_nonempty sep s) as Hs.
    destruct (Js.split sep s) as [|p ps] eqn:E; [done|].
    simpl in *. by rewrite IH.
  - pose proof (split_nonempty sep s) as Hs.
    destruct (Js.split sep s) as [|p ps] eqn:E; [done|].
    destruct ps as [|q ps]; simpl in *; by rewrite <- IH.
Qed.

Lemma keyToString_stringToKey s : keyToString (stringToKey s) = s.
Proof. apply join_split. Qed.

(** Splitting the join of a non-empty list of separator-free segments. *)
Lemma split_join_cons (seg : string) (rest : list string) :
  Js.lacks sep seg = true → separatorFree rest →
  Js.split sep (Js.join "/" (seg :: rest)) = seg :: rest.
Proof.
  intros Hseg Hrest. revert seg Hseg.
  induction Hrest as [|seg' rest Hseg' Hrest IH]; intros seg Hseg.
  - apply split_lacks, Hseg.
  - change (Js.join "/" (seg :: seg' :: rest))
      with (seg +:+ String sep (Js.join "/" (seg' :: rest))).
    rewrite split_app_sep by done. f_equal. by apply IH.
Qed.

(** *** C1: round trip of a key through its flattened form *)

(** C1 (as amended): for every NON-EMPTY storage key [k] whose segments
    contain no ['/'], [stringToKey (keyToString k) = k]. *)
Theorem stringToKey_keyToString (k : StorageKey) :
  k ≠ [] → separatorFree k → stringToKey (keyToString k) = k.
Proof.
  intros Hne Hk. destruct k as [|seg rest]; [done|].
  apply Forall_cons in Hk as [Hseg Hrest].
  unfold stringToKey, keyToString. by apply split_join_cons.
Qed.

Lemma stringToKey_keyToString_witness :
  stringToKey (keyToString ["doc1"; "incremental"; "abc"])
  = ["doc1"; "incremental"; "abc"].
Proof.
  apply stringToKey_keyToString; [done|].
  repeat constructor.
Defined.

(** C1 (as stated) fails at the empty key: it has no segment at all, so none
    contains ['/'], yet it flattens to [""], which splits into [[""]]. *)
Lemma empty_key_roundtrip_fails :
  separatorFree [] ∧ stringToKey (keyToString []) = [""] ∧
  stringToKey (keyToString []) ≠ [].
Proof. split; [constructor|]. split; [reflexivity|discriminate]. Qed.

(** *** Listing, range load and range delete *)

Lemma elem_of_bucket_keys (bucket : R2Bucket) objectKey :
  objectKey ∈ bucket_keys bucket ↔ is_Some (bucket !! objectKey).
Proof.
  unfold bucket_keys. rewrite list_elem_of_fmap.
  split.
  - intros [[k v] [-> Hkv]]. apply elem_of_map_to_list in Hkv. eauto.
  - intros [v Hv]. exists (objectKey, v). split; [done|].
    by apply elem_of_map_to_list.
Qed.

Lemma NoDup_bucket_keys (bucket : R2Bucket) : NoDup (bucket_keys bucket).
Proof.
  apply NoDup_fst_map_to_list.
Qed.

Lemma elem_of_bucket_matching (bucket : R2Bucket) prefix objectKey :
  objectKey ∈ bucket_matching bucket prefix ↔
  is_Some (bucket !! objectKey) ∧ Is_true (Js.startsWith prefix objectKey).
Proof.
  unfold bucket_matching. rewrite list_elem_of_filter, elem_of_bucket_keys.
  tauto.
Qed.

Lemma NoDup_bucket_matching (bucket : R2Bucket) prefix :
  NoDup (bucket_matching bucket prefix).
Proof. apply NoDup_filter, NoDup_bucket_keys. Qed.

(** What one [list] call returns is stored and starts with the prefix. *)
Lemma elem_of_page (bucket : R2Bucket) prefix objectKey :
  objectKey ∈ objects (bucket_list bucket prefix) →
  is_Some (bucket !! objectKey) ∧ Is_true (Js.startsWith prefix objectKey).
Proof.
  unfold bucket_list; cbn [objects]. intros Hin%subseteq_take.
  by apply elem_of_bucket_matching.
Qed.

Lemma NoDup_page (bucket : R2Bucket) prefix :
  NoDup (objects (bucket_list bucket prefix)).
Proof.
  unfold bucket_list; cbn [objects].
  eapply sublist_NoDup; [apply NoDup_bucket_matching|apply sublist_take].
Qed.

(** With no more matching keys than a page holds, one call lists them all. *)
Lemma page_complete (bucket : R2Bucket) prefix :
  length (bucket_matching bucket prefix) ≤ page_limit →
  objects (bucket_list bucket prefix) = bucket_matching bucket prefix.
Proof. intros Hle. unfold bucket_list; cbn [objects]. by apply take_ge. Qed.

(** With more, a matching key stays behind the page. *)
Lemma page_leaves_one (bucket : R2Bucket) prefix :
  page_limit < length (bucket_matching bucket prefix) →
  ∃ objectKey, objectKey ∈ bucket_matching bucket prefix
               ∧ objectKey ∉ objects (bucket_list bucket prefix).
Proof.
  intros Hlt. destruct (lookup_lt_is_Some_2 _ _ Hlt) as [o Ho].
  exists o. split; [by eapply list_elem_of_lookup_2|].
  unfold bucket_list; cbn [objects]. intros (i & Hi & Hlt')%elem_of_take.
  pose proof (NoDup_lookup _ _ _ _ (NoDup_bucket_matching bucket prefix) Hi Ho).
  lia.
Qed.

Lemma stringToKey_inj s t : stringToKey s = stringToKey t → s = t.
Proof.
  intros H. rewrite <- (keyToString_stringToKey s), <- (keyToString_stringToKey t).
  by rewrite H.
Qed.

Lemma lookup_foldl_delete (objects : list string) (bucket : R2Bucket) objectKey :
  foldl bucket_delete bucket objects !! objectKey
  = if decide (objectKey ∈ objects) then None else bucket !! objectKey.
Proof.
  revert bucket. induction objects as [|o objects IH]; intros bucket; cbn [foldl].
  - case_decide as Hin; [|done]. by apply not_elem_of_nil in Hin.
  - rewrite IH. unfold bucket_delete.
    destruct (decide (objectKey = o)) as [->|Hne].
    + rewrite lookup_delete_eq.
      rewrite (decide_True (P := o ∈ o :: objects)) by (apply elem_of_cons; by left).
      by case_decide.
    + rewrite lookup_delete_ne by done.
      destruct (decide (objectKey ∈ objects)) as [Hin|Hnin].
      * rewrite (decide_True (P := objectKey ∈ o :: objects)); [done|].
        apply elem_of_cons. by right.
      * rewrite (decide_False (P := objectKey ∈ o :: objects)); [done|].
        intros [?|?]%elem_of_cons; done.
Qed.

(** [removeRange] deletes what its one [list] call returned, nothing else. *)
Lemma lookup_removeRange (bucket : R2Bucket) keyPrefix objectKey :
  removeRange bucket keyPrefix !! objectKey
  = if decide (objectKey ∈ objects (bucket_list bucket (listOptions keyPrefix)))
    then None else bucket !! objectKey.
Proof. unfold removeRange; cbv zeta. apply lookup_foldl_delete. Qed.

Lemma lookup_removeRange_unmatched (bucket : R2Bucket) keyPrefix objectKey :
  ¬ matches keyPrefix objectKey →
  removeRange bucket keyPrefix !! objectKey = bucket !! objectKey.
Proof.
  intros Hm. rewrite lookup_removeRange, decide_False; [done|].
  intros [_ ?]%elem_of_page. done.
Qed.

Lemma lookup_removeRange_Some (bucket : R2Bucket) keyPrefix objectKey v :
  removeRange bucket keyPrefix !! objectKey = Some v → bucket !! objectKey = Some v.
Proof. rewrite lookup_removeRange. by case_decide. Qed.

Lemma lookup_saveAll_None (writes : list (StorageKey * bytes)) (bucket : R2Bucket)
    objectKey :
  Forall (λ w, keyToString w.1 ≠ objectKey) writes →
  saveAll bucket writes !! objectKey = bucket !! objectKey.
Proof.
  revert bucket. induction writes as [|[k d] writes IH]; intros bucket Hw; [done|].
  apply Forall_cons in Hw as [Hk Hw]. unfold saveAll in *; simpl.
  rewrite IH by done. unfold save, bucket_put; simpl.
  by rewrite lookup_insert_ne.
Qed.

Lemma loadRange_nil (bucket : R2Bucket) keyPrefix :
  (∀ objectKey, matches keyPrefix objectKey → bucket !! objectKey = None) →
  loadRange bucket keyPrefix = [].
Proof.
  intros H. unfold loadRange; cbv zeta.
  rewrite (elem_of_nil_inv (objects (bucket_list bucket (listOptions keyPrefix))));
    [done|].
  intros objectKey [[v Hv] Hm]%elem_of_page.
  rewrite (H objectKey Hm) in Hv. done.
Qed.

Lemma app_empty_r s : s +:+ "" = s.
Proof.
  induction s as [|a s IH]; [done|].
  change (String a s +:+ "") with (String a (s +:+ "")). by rewrite IH.
Qed.

Lemma endsWith_app_sep c s : Js.endsWith c (s +:+ String c "") = true.
Proof.
  induction s as [|a s IH]; [apply Ascii.eqb_refl|].
  change (String a s +:+ String c "") with (String a (s +:+ String c "")).
  simpl. destruct (s +:+ String c "") eqn:E; [|done].
  by destruct s.
Qed.

Lemma endsWith_listOptions keyPrefix : Js.endsWith sep (listOptions keyPrefix) = true.
Proof.
  unfold listOptions; cbv zeta.
  destruct (Js.endsWith sep (keyToString keyPrefix)) eqn:E.
  - by rewrite app_empty_r.
  - apply endsWith_app_sep.
Qed.

(** [startsWith] reads as expected: the string is the prefix followed by
    something. *)
Lemma startsWith_app p s : Is_true (Js.startsWith p s) ↔ ∃ rest, s = p +:+ rest.
Proof.
  unfold Js.startsWith. revert s. induction p as [|a p IH]; intros s.
  - destruct s; simpl; split; eauto.
  - destruct s as [|b s]; simpl.
    + split; [done|]. by intros [rest ?].
    + destruct (ascii_dec a b) as [->|Hne].
      * rewrite IH. split.
        -- intros [rest ->]. by exists rest.
        -- intros [rest Heq]. exists rest.
           change (String b p +:+ rest) with (String b (p +:+ rest)) in Heq.
           by injection Heq.
      * split; [done|]. intros [rest Heq].
        change (String a p +:+ rest) with (String a (p +:+ rest)) in Heq.
        injection Heq as Hb _. by destruct Hne.
Qed.

(** The chunks are the listed object keys, each unflattened and loaded. *)
Lemma elem_of_loadRange (bucket : R2Bucket) keyPrefix c :
  c ∈ loadRange bucket keyPrefix ↔
  ∃ objectKey, c = {| key := stringToKey objectKey; data := bucket !! objectKey |}
               ∧ objectKey ∈ objects (bucket_list bucket (listOptions keyPrefix)).
Proof.
  unfold loadRange; cbv zeta. rewrite list_elem_of_fmap.
  unfold load, bucket_get; cbv zeta.
  by setoid_rewrite keyToString_stringToKey.
Qed.

Lemma loadRange_sound (bucket : R2Bucket) keyPrefix c :
  c ∈ loadRange bucket keyPrefix →
  ∃ objectKey, c = {| key := stringToKey objectKey; data := bucket !! objectKey |}
               ∧ is_Some (bucket !! objectKey) ∧ matches keyPrefix objectKey.
Proof.
  intros (o & -> & Hin)%elem_of_loadRange. exists o. split; [done|].
  by apply elem_of_page.
Qed.

Lemma loadRange_flat_keys (bucket : R2Bucket) keyPrefix :
  (λ c, keyToString (key c)) <$> loadRange bucket keyPrefix
  = objects (bucket_list bucket (listOptions keyPrefix)).
Proof.
  unfold loadRange; cbv zeta. rewrite <- list_fmap_compose.
  rewrite <- (list_fmap_id (objects _)) at 2.
  apply list_fmap_ext. intros i o _. simpl. apply keyToString_stringToKey.
Qed.

Lemma page_limit_pos : 0 < page_limit.
Proof. unfold page_limit. lia. Qed.

(** When the page left a matching key behind, [loadRange] after
    [removeRange] still finds something. *)
Lemma loadRange_after_truncated_removeRange (bucket : R2Bucket) keyPrefix :
  page_limit < length (bucket_matching bucket (listOptions keyPrefix)) →
  loadRange (removeRange bucket keyPrefix) keyPrefix ≠ [].
Proof.
  intros Hlt. destruct (page_leaves_one _ _ Hlt) as (o & Ho & Hout).
  apply elem_of_bucket_matching in Ho as [Hsome Hm].
  assert (o ∈ bucket_matching (removeRange bucket keyPrefix) (listOptions keyPrefix))
    as Hin.
  { apply elem_of_bucket_matching. split; [|done].
    by rewrite lookup_removeRange, decide_False. }
  unfold loadRange; cbv zeta. intros Hnil%fmap_nil_inv.
  unfold bucket_list in Hnil; cbn [objects] in Hnil.
  apply take_nil_inv in Hnil as [H0|Hnil].
  - pose proof page_limit_pos. lia.
  - rewrite Hnil in Hin. by apply elem_of_nil in Hin.
Qed.

Example doc1_doc10 (d1 d2 : bytes) :
  loadRange (save (save ∅ ["doc1"; "a"] d1) ["doc10"; "a"] d2) ["doc1"]
  = [{| key := ["doc1"; "a"]; data := Some d1 |}].
Proof. vm_compute. reflexivity. Qed.

Example big_bucket_pages :
  size (big_bucket 1001) = 1001
  ∧ length (bucket_matching (big_bucket 1001) (listOptions ["big"])) = 1001
  ∧ length (loadRange (big_bucket 1001) ["big"]) = 1000
  ∧ truncated (bucket_list (big_bucket 1001) (listOptions ["big"])) = true.
Proof. vm_compute. done. Qed.

(** *** C2: what [loadRange] returns *)

(** C2: the listing prefix is the flattened prefix with a ['/'] appended unless
    it already ends with one, and the stored keys it selects are those that
    start with it.  [loadRange] returns the first page of them: the flattened
    keys of its chunks are the first 1000 selected keys in listing order,
    each once and each with its stored blob.  So it returns exactly the
    selected keys while there are at most 1000 of them (with objects under
    [["doc1","a"]] and [["doc10","a"]], [loadRange ["doc1"]] returns the
    former only), and leaves a stored, selected key out as soon as there are
    more: of 1001 objects saved under [["big", i]] it returns 1000. *)
Theorem loadRange_first_page (bucket : R2Bucket) (keyPrefix : StorageKey) :
  let flat := keyToString keyPrefix in
  let matching := bucket_matching bucket (listOptions keyPrefix) in
  let chunks := loadRange bucket keyPrefix in
  let selected := λ objectKey,
    is_Some (bucket !! objectKey)
    ∧ ∃ rest, objectKey = listOptions keyPrefix +:+ rest in
  listOptions keyPrefix = (if Js.endsWith sep flat then flat else flat +:+ "/")
  ∧ Js.endsWith sep (listOptions keyPrefix) = true
  ∧ (∀ objectKey, objectKey ∈ matching ↔ selected objectKey)
  ∧ (λ c, keyToString (key c)) <$> chunks = take page_limit matching
  ∧ NoDup (key <$> chunks)
  ∧ (∀ c, c ∈ chunks → is_Some (data c) ∧ data c = load bucket (key c))
  ∧ length chunks = page_limit `min` length matching
  ∧ (length matching ≤ page_limit →
     ∀ objectKey,
       objectKey ∈ (λ c, keyToString (key c)) <$> chunks ↔ selected objectKey)
  ∧ (page_limit < length matching →
     ∃ objectKey,
       selected objectKey
       ∧ objectKey ∉ (λ c, keyToString (key c)) <$> chunks)
  ∧ (∀ d1 d2 : bytes,
       loadRange (save (save ∅ ["doc1"; "a"] d1) ["doc10"; "a"] d2) ["doc1"]
       = [{| key := ["doc1"; "a"]; data := Some d1 |}])
  ∧ (length (bucket_matching (big_bucket 1001) (listOptions ["big"])) = 1001
     ∧ length (loadRange (big_bucket 1001) ["big"]) = 1000).
Proof.
  intros flat matching chunks selected.
  assert (∀ objectKey, objectKey ∈ matching ↔ selected objectKey) as Hsel.
  { intros o. unfold matching, selected.
    by rewrite elem_of_bucket_matching, startsWith_app. }
  subst flat chunks.
  split_and!.
  - unfold listOptions; cbv zeta.
    destruct (Js.endsWith sep (keyToString keyPrefix)); [apply app_empty_r|done].
  - apply endsWith_listOptions.
  - done.
  - apply loadRange_flat_keys.
  - unfold loadRange; cbv zeta. rewrite <- list_fmap_compose.
    apply NoDup_fmap_2_strong; [|apply NoDup_page].
    intros s t _ _ H. by apply stringToKey_inj.
  - intros c (o & -> & Ho & Hm)%loadRange_sound. simpl.
    unfold load, bucket_get; cbv zeta. by rewrite keyToString_stringToKey.
  - unfold loadRange; cbv zeta. rewrite length_fmap.
    unfold bucket_list; cbn [objects]. apply length_take.
  - intros Hle o. rewrite loadRange_flat_keys, page_complete by done.
    apply Hsel.
  - intros Hlt. destruct (page_leaves_one _ _ Hlt) as (o & Ho & Hout).
    exists o. split; [by apply Hsel|]. by rewrite loadRange_flat_keys.
  - intros d1 d2. vm_compute. reflexivity.
  - vm_compute. reflexivity.
  - vm_compute. reflexivity.
Qed.

(** *** C8: [removeRange] followed by [loadRange] *)

(** C8: [removeRange] deletes the stored objects its one listing call
    returned, the first 1000 whose flat key starts with the listing prefix of
    [loadRange], and leaves every other object as it was, those under
    non-matching keys in particular.  While at most 1000 stored keys match,
    [loadRange] of the same prefix is empty afterwards, also after saves
    under keys that do not match; with more, it is not: of 1001 objects
    saved under [["big", i]] one is left and [loadRange] returns it. *)
Theorem removeRange_first_page (bucket : R2Bucket) (keyPrefix : StorageKey) :
  let matching := bucket_matching bucket (listOptions keyPrefix) in
  (∀ objectKey,
     removeRange bucket keyPrefix !! objectKey
     = if decide (objectKey ∈ take page_limit matching) then None
       else bucket !! objectKey)
  ∧ (∀ objectKey, ¬ matches keyPrefix objectKey →
       removeRange bucket keyPrefix !! objectKey = bucket !! objectKey)
  ∧ (length matching ≤ page_limit →
     ∀ writes : list (StorageKey * bytes),
       Forall (λ w, ¬ matches keyPrefix (keyToString w.1)) writes →
       loadRange (saveAll (removeRange bucket keyPrefix) writes) keyPrefix = [])
  ∧ (page_limit < length matching →
     loadRange (removeRange bucket keyPrefix) keyPrefix ≠ [])
  ∧ length (loadRange (removeRange (big_bucket 1001) ["big"]) ["big"]) = 1.
Proof.
  intros matching. split_and!.
  - intros o. apply lookup_removeRange.
  - intros o. apply lookup_removeRange_unmatched.
  - intros Hle writes Hw. apply loadRange_nil. intros o Hm.
    rewrite lookup_saveAll_None.
    + rewrite lookup_removeRange, page_complete by done.
      case_decide as Hin; [done|].
      destruct (bucket !! o) as [v|] eqn:E; [|done].
      destruct Hin. apply elem_of_bucket_matching. eauto.
    + eapply Forall_impl; [exact Hw|]. intros w Hnm Heq. apply Hnm.
      by rewrite Heq.
  - apply loadRange_after_truncated_removeRange.
  - vm_compute. done.
Qed.

Example removeRange_siblings :
  removeRange {[ "doc1/a" := []; "doc10/a" := [Byte.x01] ]} ["doc1"]
  = {[ "doc10/a" := [Byte.x01] ]}.
Proof. vm_compute. reflexivity. Qed.

(** ** The relay *)

Section MapFacts.
Context {V : Type}.
Implicit Types (m : list (WebSocket * V)) (k : WebSocket) (v : V).

Lemma Map_get_set_eq k v m : Map_get k (Map_set k v m) = Some v.
Proof.
  induction m as [|[k' v'] m IH]; simpl.
  - by rewrite decide_True.
  - destruct (decide (k' = k)) as [->|Hne]; simpl.
    + by rewrite decide_True.
    + by rewrite decide_False.
Qed.

Lemma Map_get_set_ne k k' v m : k ≠ k' → Map_get k' (Map_set k v m) = Map_get k' m.
Proof.
  intros Hne. induction m as [|[k0 v0] m IH]; simpl.
  - by rewrite decide_False.
  - destruct (decide (k0 = k)) as [->|Hne0]; simpl.
    + by rewrite !decide_False.
    + by rewrite IH.
Qed.

Lemma Map_set_not_nil k v m : Map_set k v m ≠ [].
Proof. destruct m as [|[k' v'] m]; simpl; [done|]. by case_decide. Qed.

Lemma Map_get_Some_not_nil k v m : Map_get k m = Some v → m ≠ [].
Proof. by destruct m. Qed.

Lemma Map_size_pos m : (0 <? Map_size m) = true ↔ m ≠ [].
Proof. destruct m; simpl; split; done. Qed.

Lemma Map_size_zero m : (Map_size m =? 0) = true ↔ m = [].
Proof. destruct m; simpl; split; done. Qed.
End MapFacts.

Section RelayProperties.
Context {protocol : Protocol} {cbor : Cbor}.
Implicit Types (this : Adapter) (ws : WebSocket) (message : string + bytes).

(** [handleMessage] on a handle that is not registered. *)
Lemma handleMessage_unregistered this ws message :
  Map_get ws (connections this) = None →
  handleMessage ws message this = (Normal (), this, []).
Proof. intros Hget. run_method. by rewrite Hget. Qed.

(** [handleMessage] on a registered handle, frame not decodable. *)
Lemma handleMessage_undecodable this ws message connection :
  Map_get ws (connections this) = Some connection →
  cbor_decode (buffer_of message) = None →
  handleMessage ws message this
  = (Normal (),
     {| connections := connections this;
        isConnected := isConnected this
                       || truthy_opt (this_peerId this);
        this_peerId := this_peerId this;
        this_peerMetadata := this_peerMetadata this |},
     [ConsoleError]).
Proof.
  intros Hget Hdec. run_method. rewrite Hget, Hdec. simpl.
  apply Map_get_Some_not_nil, Map_size_pos in Hget. rewrite Hget.
  destruct this as [cs [] id md]; simpl; destruct (truthy_opt id); done.
Qed.

(** [handleMessage] on a registered handle, frame decoded to [null] or
    [undefined]: reading [decoded.type] throws inside the [try]. *)
Lemma handleMessage_nullish this ws message connection :
  Map_get ws (connections this) = Some connection →
  cbor_decode (buffer_of message) = Some Nullish →
  handleMessage ws message this
  = (Normal (),
     {| connections := connections this;
        isConnected := isConnected this
                       || truthy_opt (this_peerId this);
        this_peerId := this_peerId this;
        this_peerMetadata := this_peerMetadata this |},
     [ConsoleError]).
Proof.
  intros Hget Hdec. run_method. rewrite Hget, Hdec. simpl.
  apply Map_get_Some_not_nil, Map_size_pos in Hget. rewrite Hget.
  destruct this as [cs [] id md]; simpl; destruct (truthy_opt id); done.
Qed.

Lemma handleMessage_join this ws message connection joinMsg :
  Map_get ws (connections this) = Some connection →
  cbor_decode (buffer_of message) = Some (Join joinMsg) →
  handleMessage ws message this
  = (Normal (),
     {| connections := Map_set ws (record_join connection joinMsg) (connections this);
        isConnected := isConnected this || truthy_opt (this_peerId this);
        this_peerId := this_peerId this;
        this_peerMetadata := this_peerMetadata this |},
     join_calls this ws joinMsg).
Proof.
  intros Hget Hdec. run_method. rewrite Hget, Hdec. simpl.
  unfold join_calls.
  pose proof (Map_set_not_nil ws (record_join connection joinMsg) (connections this)) as Hne.
  apply Map_size_pos in Hne.
  destruct this as [cs ic id md]; simpl in *.
  destruct id as [[|a s]|]; simpl; rewrite ?Hne; destruct ic; simpl; done.
Qed.

Lemma handleMessage_other this ws message connection m :
  Map_get ws (connections this) = Some connection →
  cbor_decode (buffer_of message) = Some (Other m) →
  handleMessage ws message this
  = (Normal (),
     {| connections := connections this;
        isConnected := isConnected this || truthy_opt (this_peerId this);
        this_peerId := this_peerId this;
        this_peerMetadata := this_peerMetadata this |},
     [Emit (MessageEvent m)]).
Proof.
  intros Hget Hdec. run_method. rewrite Hget, Hdec. simpl.
  apply Map_get_Some_not_nil, Map_size_pos in Hget. rewrite Hget.
  destruct this as [cs [] id md]; simpl; destruct (truthy_opt id); done.
Qed.

(** A throw that is not caught ends the computation: what follows is not
    run; inside [try_catch] the handler runs and the completion is normal. *)
Example throw_propagates this :
  (throw (A := unit) ;; call ConsoleError) this = (Throw, this, [])
  ∧ try_catch (throw (A := unit) ;; call (Emit CloseEvent)) (call ConsoleError) this
    = (Normal (), this, [ConsoleError]).
Proof. split; reflexivity. Qed.

(** *** C10: a handle that is not registered *)

(** C10: for a transport handle that is not in the registry,
    [handleMessage] completes normally, makes no outside call (no event, no
    write, no log), leaves the whole adapter as it was, readiness included,
    and does the same whatever the decoder is, so no decode takes part. *)
Theorem handleMessage_unknown_handle this ws message :
  Map_get ws (connections this) = None →
  completion_of (handleMessage ws message) this = Normal ()
  ∧ calls_of (handleMessage ws message) this = []
  ∧ state_after (handleMessage ws message) this = this
  ∧ isReady (state_after (handleMessage ws message) this) = isReady this
  ∧ ∀ other : Cbor,
      @handleMessage protocol other ws message this
      = @handleMessage protocol cbor ws message this.
Proof.
  intros Hget. unfold completion_of, calls_of, state_after.
  rewrite (handleMessage_unregistered _ _ _ Hget). simpl.
  repeat split; try done.
  intros other. run_method. by rewrite Hget.
Qed.

(** *** C7: a frame that does not decode *)

(** C7: for a registered connection and bytes on which decoding throws,
    [handleMessage] completes normally, its only outside call is the error
    log (so no event reaches the repo and nothing is written), and the
    connection set is unchanged, the connection still registered. *)
Theorem handleMessage_malformed this ws message connection :
  Map_get ws (connections this) = Some connection →
  cbor_decode (buffer_of message) = None →
  completion_of (handleMessage ws message) this = Normal ()
  ∧ calls_of (handleMessage ws message) this = [ConsoleError]
  ∧ (∀ e, Emit e ∉ calls_of (handleMessage ws message) this)
  ∧ connections (state_after (handleMessage ws message) this) = connections this
  ∧ Map_get ws (connections (state_after (handleMessage ws message) this))
    = Some connection.
Proof.
  intros Hget Hdec. unfold completion_of, calls_of, state_after.
  rewrite (handleMessage_undecodable _ _ _ _ Hget Hdec). simpl.
  repeat split; try done.
  intros e ?%list_elem_of_singleton. done.
Qed.

(** *** C3: the identity recorded by join frames *)

Lemma identity_after_join this ws message connection joinMsg :
  Map_get ws (connections this) = Some connection →
  cbor_decode (buffer_of message) = Some (Join joinMsg) →
  Map_get ws (connections (state_after (handleMessage ws message) this))
  = Some (record_join connection joinMsg).
Proof.
  intros Hget Hdec. unfold state_after.
  rewrite (handleMessage_join _ _ _ _ _ Hget Hdec). simpl.
  apply Map_get_set_eq.
Qed.

(** C3 (as amended): every join frame a registered connection processes
    records its [senderId] on the Connection Record: after a join frame
    with senderId A the recorded identity is A, and after a second join
    frame with senderId B it is B (the last join wins). *)
Theorem join_records_latest_identity this ws messageA messageB
    (joinMsgA joinMsgB : JoinMessage) :
  is_Some (Map_get ws (connections this)) →
  cbor_decode (buffer_of messageA) = Some (Join joinMsgA) →
  cbor_decode (buffer_of messageB) = Some (Join joinMsgB) →
  let after_first := state_after (handleMessage ws messageA) this in
  let after_second := state_after (handleMessage ws messageB) after_first in
  identity_of ws after_first = Some (join_senderId joinMsgA)
  ∧ identity_of ws after_second = Some (join_senderId joinMsgB).
Proof.
  intros [connection Hget] HA HB after_first after_second.
  pose proof (identity_after_join _ _ _ _ _ Hget HA) as H1.
  pose proof (identity_after_join _ _ _ _ _ H1 HB) as H2.
  unfold identity_of. subst after_first after_second.
  by rewrite H1, H2.
Qed.

(** *** C9: the join handshake *)

(** C9 (as amended): a join frame on a registered connection records the
    frame's [senderId] and [peerMetadata] on the Connection Record; if the
    relay's own identity is bound to a non-empty id, the encoded peer frame
    [{type: 'peer', senderId: selfId, peerMetadata: selfMetadata, targetId:
    the join's senderId, selectedProtocolVersion: '1'}] is sent to that same
    connection, and no reply is sent if the identity is unbound; in either
    case the peer-candidate event follows, with the joined peer's id and
    its metadata, the empty object when the metadata is absent. *)
Theorem handleMessage_join_handshake this (socket : WebSocket) message connection
    (joinMsg : JoinMessage) :
  Map_get socket (connections this) = Some connection →
  cbor_decode (buffer_of message) = Some (Join joinMsg) →
  let this' := state_after (handleMessage socket message) this in
  let candidate :=
    Emit (PeerCandidate (join_senderId joinMsg)
            (default emptyObject (join_peerMetadata joinMsg))) in
  completion_of (handleMessage socket message) this = Normal ()
  ∧ Map_get socket (connections this')
    = Some {| ws := ws connection;
              peerId := Some (join_senderId joinMsg);
              peerMetadata := join_peerMetadata joinMsg |}
  ∧ (∀ ws', ws' ≠ socket →
       Map_get ws' (connections this') = Map_get ws' (connections this))
  ∧ (∀ selfId, this_peerId this = Some selfId → selfId ≠ "" →
       calls_of (handleMessage socket message) this
       = [WsSend socket (cbor_encode (EncPeer
            {| peer_senderId := selfId;
               peer_peerMetadata := this_peerMetadata this;
               peer_targetId := join_senderId joinMsg;
               selectedProtocolVersion := "1" |}));
          candidate])
  ∧ (this_peerId this = None →
       calls_of (handleMessage socket message) this = [candidate]).
Proof.
  intros Hget Hdec this' candidate. subst this' candidate.
  unfold completion_of, calls_of, state_after.
  rewrite (handleMessage_join _ _ _ _ _ Hget Hdec). simpl.
  split; [done|]. split; [apply Map_get_set_eq|].
  split; [intros ws' Hne; by apply Map_get_set_ne|].
  unfold join_calls. split.
  - intros selfId -> Hne. by destruct selfId.
  - by intros ->.
Qed.

(** *** C5 and C6: routing of outbound frames *)

Lemma send_to_first readyState (m : Message) target entries this :
  send_to readyState m target entries this
  = (Normal (), this,
     match head (filter (λ e, peerId e.2 = Some target
                              ∧ readyState e.1 = READY_STATE_OPEN) entries) with
     | Some (ws, _) => [WsSend ws (cbor_encode (EncMessage m))]
     | None => []
     end).
Proof.
  induction entries as [|[ws connection] entries IH]; [done|].
  rewrite filter_cons. simpl.
  destruct (decide (peerId connection = Some target)) as [Hid|Hid];
    destruct (decide (readyState ws = READY_STATE_OPEN)) as [Hopen|Hopen].
  - rewrite decide_True by done.
    rewrite !bool_decide_eq_true_2 by done. done.
  - rewrite decide_False by tauto.
    rewrite (bool_decide_eq_false_2 (readyState ws = _)) by done.
    rewrite andb_false_r. apply IH.
  - rewrite decide_False by tauto.
    rewrite (bool_decide_eq_false_2 (peerId connection = _)) by done.
    apply IH.
  - rewrite decide_False by tauto.
    rewrite (bool_decide_eq_false_2 (peerId connection = _)) by done.
    apply IH.
Qed.

Lemma send_all_filter readyState encoded entries this :
  send_all readyState encoded entries this
  = (Normal (), this,
     (λ e, WsSend e.1 encoded)
       <$> filter (λ e, Is_true (truthy_opt (peerId e.2))
                        ∧ readyState e.1 = READY_STATE_OPEN) entries).
Proof.
  revert this. induction entries as [|[ws connection] entries IH]; intros this; [done|].
  rewrite filter_cons. cbn [send_all]. unfold mbind, M_bind, when. simpl.
  destruct (truthy_opt (peerId connection)) eqn:Hid; simpl.
  - destruct (decide (readyState ws = READY_STATE_OPEN)) as [Hopen|Hopen].
    + rewrite (bool_decide_eq_true_2 _ Hopen). simpl. rewrite IH.
      case_decide; [done|tauto].
    + rewrite (bool_decide_eq_false_2 _ Hopen). simpl. rewrite IH.
      case_decide; [tauto|done].
  - rewrite IH. try case_decide; try done; tauto.
Qed.

Lemma truthy_nonempty (s : string) : s ≠ "" → truthy s = true.
Proof. by destruct s. Qed.

(** C5 (as amended): for an outbound frame whose [targetId] is a non-empty
    id, [send] writes the encoded frame to the first connection, in
    registry order, whose recorded identity equals [targetId] and whose
    transport is open, and to no other; if there is none it writes nothing;
    in both cases it completes normally and leaves the adapter as it was. *)
Theorem send_unicast this (readyState : Transports) (m : Message) target :
  targetId m = Some target → target ≠ "" →
  let wanted := λ e : WebSocket * WebSocketConnection,
    peerId e.2 = Some target ∧ readyState e.1 = READY_STATE_OPEN in
  completion_of (send readyState m) this = Normal ()
  ∧ state_after (send readyState m) this = this
  ∧ calls_of (send readyState m) this
    = match head (filter wanted (connections this)) with
      | Some (ws, _) => [WsSend ws (cbor_encode (EncMessage m))]
      | None => []
      end
  ∧ ((∀ e, e ∈ connections this → ¬ wanted e) →
     calls_of (send readyState m) this = []).
Proof.
  intros Htarget Hne wanted.
  assert (send readyState m this
          = send_to readyState m target (connections this) this) as Hsend.
  { unfold send, mbind, M_bind, get. rewrite Htarget. simpl.
    rewrite truthy_nonempty by done.
    by destruct (send_to readyState m target (connections this) this)
      as [[[] ?] ?]. }
  unfold completion_of, state_after, calls_of.
  rewrite Hsend, send_to_first. simpl.
  repeat split; try done.
  intros Hnone. fold wanted.
  destruct (filter wanted (connections this)) as [|e l] eqn:E; [done|].
  assert (e ∈ filter wanted (connections this)) as Hin by (rewrite E; left).
  apply list_elem_of_filter in Hin as [Hw Hin]. by destruct (Hnone e Hin).
Qed.

(** C6 (as amended): for an outbound frame without [targetId], [send]
    encodes the frame once and writes those bytes, in registry order, to
    every connection whose recorded identity is a non-empty id and whose
    transport is open, and to no other connection; in particular a
    connection whose identity is unset receives nothing. *)
Theorem send_broadcast this (readyState : Transports) (m : Message) :
  targetId m = None →
  let encoded := cbor_encode (EncMessage m) in
  let joined_open := λ e : WebSocket * WebSocketConnection,
    Is_true (truthy_opt (peerId e.2)) ∧ readyState e.1 = READY_STATE_OPEN in
  completion_of (send readyState m) this = Normal ()
  ∧ state_after (send readyState m) this = this
  ∧ calls_of (send readyState m) this
    = (λ e, WsSend e.1 encoded) <$> filter joined_open (connections this)
  ∧ (∀ ws connection id,
       (ws, connection) ∈ connections this →
       peerId connection = Some id → id ≠ "" →
       readyState ws = READY_STATE_OPEN →
       WsSend ws encoded ∈ calls_of (send readyState m) this)
  ∧ (∀ call, call ∈ calls_of (send readyState m) this →
       ∃ ws connection id,
         call = WsSend ws encoded ∧ (ws, connection) ∈ connections this
         ∧ peerId connection = Some id ∧ id ≠ ""
         ∧ readyState ws = READY_STATE_OPEN).
Proof.
  intros Htarget encoded joined_open.
  assert (send readyState m this
          = send_all readyState encoded (connections this) this) as Hsend.
  { unfold send, mbind, M_bind, get. rewrite Htarget. simpl.
    by destruct (send_all readyState _ (connections this) this)
      as [[[] ?] ?]. }
  unfold completion_of, state_after, calls_of.
  rewrite Hsend, send_all_filter. simpl. fold joined_open.
  split; [done|]. split; [done|]. split; [done|]. split.
  - intros ws connection id Hin Hid Hne Hopen.
    apply (list_elem_of_fmap_2 (λ e, WsSend e.1 encoded) _ (ws, connection)).
    apply list_elem_of_filter. split; [|done].
    split; [|done]. simpl. rewrite Hid. simpl.
    by rewrite truthy_nonempty.
  - intros call [[ws connection] [-> [[Hid Hopen] Hin]%list_elem_of_filter]]%list_elem_of_fmap.
    simpl in *. destruct (peerId connection) as [id|] eqn:E; [|done].
    exists ws, connection, id. repeat split; try done.
    intros ->. done.
Qed.

(** *** C4: readiness over sequences of calls *)

Lemma close_all_state readyState entries this :
  completion_of (close_all readyState entries) this = Normal ()
  ∧ state_after (close_all readyState entries) this = this.
Proof.
  revert this. induction entries as [|[ws connection] entries IH]; intros this; [done|].
  unfold completion_of, state_after in *. cbn [close_all].
  unfold mbind, M_bind, when, call, mret, M_ret.
  destruct (bool_decide (readyState ws = READY_STATE_OPEN)); simpl;
    destruct (IH this) as [H1 H2];
    destruct (close_all readyState entries this) as [[c this'] out];
    simpl in *; by subst.
Qed.

Lemma send_state readyState (m : Message) this :
  completion_of (send readyState m) this = Normal ()
  ∧ state_after (send readyState m) this = this.
Proof.
  unfold completion_of, state_after, send, mbind, M_bind, get. simpl.
  destruct (targetId m) as [target|]; simpl.
  - destruct (truthy target).
    + by rewrite send_to_first.
    + by rewrite send_all_filter.
  - by rewrite send_all_filter.
Qed.

(** What one call does to the adapter, as far as readiness goes. *)
Lemma run_op_step op this :
  flag_sound this →
  let this' := state_after (run_op op) this in
  completion_of (run_op op) this = Normal ()
  ∧ flag_sound this'
  ∧ (connections this' ≠ [] →
     connections this ≠ [] ∨ ∃ ws, op = AddConnection ws)
  ∧ (this_peerId this' ≠ None →
     this_peerId this ≠ None ∨ ∃ id metadata, op = Connect id metadata)
  ∧ (isReady this = true → isReady this' = false →
     connections this ≠ [] ∧ connections this' = []).
Proof.
  intros Hflag this'. subst this'. unfold flag_sound, isReady in *.
  assert (∀ b c, isConnected this && b = true →
                 (isConnected this || c) && b = false → False) as Hstay.
  { intros b c [-> ->]%andb_true_iff. done. }
  assert (∀ b, isConnected this && b = true → connections this ≠ []) as Hlive.
  { intros b [Hic _]%andb_true_iff. by apply Hflag. }
  assert ((isConnected this || truthy_opt (this_peerId this)) = true →
          this_peerId this ≠ None) as Hbound.
  { intros [Hic|Ht]%orb_true_iff; [by apply Hflag|].
    by destruct (this_peerId this). }
  destruct op as [ws|ws|ws message|id metadata|readyState m|readyState];
    cbn [run_op].
  - (* addConnection *)
    run_method.
    pose proof (Map_set_not_nil ws
      {| ws := ws; peerId := None; peerMetadata := None |} (connections this)).
    split_and!; eauto.
    + intros Hic. by destruct (Hflag Hic).
    + intros Hr Hr'. by rewrite Hr in Hr'.
  - (* removeConnection *)
    run_method.
    destruct (Map_delete ws (connections this)) as [|e cs'] eqn:E; simpl.
    + split_and!; eauto; done.
    + split_and!; eauto.
      * intros Hic. by destruct (Hflag Hic).
      * intros _. left. intros Hnil. by rewrite Hnil in E.
      * intros Hr Hr'. by rewrite Hr in Hr'.
  - (* handleMessage *)
    unfold completion_of, state_after.
    destruct (Map_get ws (connections this)) as [connection|] eqn:Hget.
    + assert (connections this ≠ []) as Hne
        by (by eapply Map_get_Some_not_nil).
      destruct (cbor_decode (buffer_of message)) as [[joinMsg|m|]|] eqn:Hdec.
      * rewrite (handleMessage_join _ _ _ _ _ Hget Hdec). simpl.
        split_and!; eauto using Map_set_not_nil.
        intros Hr Hr'. destruct (Hstay _ _ Hr Hr').
      * rewrite (handleMessage_other _ _ _ _ _ Hget Hdec). simpl.
        split_and!; eauto.
        intros Hr Hr'. destruct (Hstay _ _ Hr Hr').
      * rewrite (handleMessage_nullish _ _ _ _ Hget Hdec). simpl.
        split_and!; eauto.
        intros Hr Hr'. destruct (Hstay _ _ Hr Hr').
      * rewrite (handleMessage_undecodable _ _ _ _ Hget Hdec). simpl.
        split_and!; eauto.
        intros Hr Hr'. destruct (Hstay _ _ Hr Hr').
    + rewrite (handleMessage_unregistered _ _ _ Hget). simpl.
      split_and!; eauto.
      intros Hr Hr'. by rewrite Hr in Hr'.
  - (* connect *)
    run_method.
    destruct (connections this) as [|e cs] eqn:E; simpl.
    + split_and!; eauto; try done.
      intros Hic. by destruct (Hflag Hic).
    + split_and!; eauto; done.
  - (* send *)
    destruct (send_state readyState m this) as [-> ->].
    split_and!; eauto.
    intros Hr Hr'. by rewrite Hr in Hr'.
  - (* disconnect *)
    unfold completion_of, state_after, disconnect, mbind, M_bind, get,
      set_connections, set_isConnected, modify, call.
    destruct (close_all_state readyState (connections this) this) as [H1 H2].
    unfold completion_of, state_after in H1, H2.
    destruct (close_all readyState (connections this) this) as [[c this'] out].
    simpl in *. subst. simpl.
    split_and!; eauto; try done.
Qed.

Lemma run_snoc ops op this :
  completion_of (run ops) this = Normal () →
  state_after (run (ops ++ [op])) this
  = state_after (run_op op) (state_after (run ops) this)
  ∧ completion_of (run (ops ++ [op])) this
    = completion_of (run_op op) (state_after (run ops) this).
Proof.
  revert this. induction ops as [|op' ops IH]; intros this.
  - intros _. unfold state_after, completion_of. simpl.
    unfold mbind, M_bind, mret, M_ret.
    by destruct (run_op op this) as [[[[]|] ?] ?].
  - unfold state_after, completion_of in *. simpl.
    unfold mbind, M_bind.
    destruct (run_op op' this) as [[[[]|] this1] out1]; simpl; [|done].
    intros Hc. specialize (IH this1).
    destruct (run ops this1) as [[c2 this2] out2]; simpl in *.
    specialize (IH Hc).
    by destruct (run (ops ++ [op]) this1) as [[c3 this3] out3].
Qed.

(** Facts that hold after any sequence of calls on a new adapter. *)
Lemma run_history ops :
  let this := state_after (run ops) new in
  completion_of (run ops) new = Normal ()
  ∧ flag_sound this
  ∧ (connections this ≠ [] → ∃ ws, AddConnection ws ∈ ops)
  ∧ (this_peerId this ≠ None → ∃ id metadata, Connect id metadata ∈ ops).
Proof.
  induction ops as [|op ops IH] using rev_ind; simpl.
  - split_and!; done.
  - destruct IH as (Hc & Hflag & Hconn & Hid).
    destruct (run_snoc ops op new Hc) as [-> ->].
    destruct (run_op_step op _ Hflag) as (Hc' & Hflag' & Hconn' & Hid' & _).
    split; [done|]. split; [done|]. split.
    + intros [Hne|[ws ->]]%Hconn'.
      * destruct (Hconn Hne) as [ws Hin]. exists ws.
        apply elem_of_app. by left.
      * exists ws. apply elem_of_app. right. by apply list_elem_of_singleton.
    + intros [Hne|(id & metadata & ->)]%Hid'.
      * destruct (Hid Hne) as (id & metadata & Hin). exists id, metadata.
        apply elem_of_app. by left.
      * exists id, metadata. apply elem_of_app. right.
        by apply list_elem_of_singleton.
Qed.

(** C4: on a new adapter [isReady] is false; after any sequence of calls
    it is true only if the sequence contains a [connect] and an
    [addConnection]; and when one more call turns it from true to false,
    the connection set was non-empty before that call and is empty after
    it. *)
Theorem isReady_over_runs (ops : list Op) :
  let this := state_after (run ops) new in
  isReady new = false
  ∧ completion_of (run ops) new = Normal ()
  ∧ (isReady this = true →
     (∃ id metadata, Connect id metadata ∈ ops)
     ∧ (∃ ws, AddConnection ws ∈ ops))
  ∧ (∀ op, state_after (run (ops ++ [op])) new = state_after (run_op op) this)
  ∧ (∀ op, isReady this = true →
       isReady (state_after (run_op op) this) = false →
       connections this ≠ [] ∧ connections (state_after (run_op op) this) = []).
Proof.
  intros this. subst this.
  destruct (run_history ops) as (Hc & Hflag & Hconn & Hid).
  split; [done|]. split; [done|]. split; [|split].
  - intros [Hic _]%andb_true_iff. destruct (Hflag Hic) as [H1 H2]. eauto.
  - intros op. by destruct (run_snoc ops op new Hc).
  - intros op. by destruct (run_op_step op _ Hflag) as (_ & _ & _ & _ & H).
Qed.

End RelayProperties.

(** ** Worked examples on the sample wire format *)

Section Examples.
Existing Instance sample_protocol.
Existing Instance sample_cbor.

Example one_joined_state :
  one_joined
  = {| connections := [(1, {| ws := 1; peerId := Some "A"; peerMetadata := None |})];
       isConnected := false; this_peerId := None; this_peerMetadata := None |}.
Proof. reflexivity. Qed.

Example handshake_replies_when_bound :
  calls_of (run [AddConnection 1; Connect "S" None; HandleMessage 1 joinA]) new
  = [WsSend 1 [Byte.x03; Byte.x53; Byte.x2f; Byte.x41];
     Emit (PeerCandidate "A" [])].
Proof. reflexivity. Qed.

Example unicast_reaches_B_only :
  calls_of (send all_open (sample_message (Some "B") [])) two_joined
  = [WsSend 2 [Byte.x02; Byte.x42]].
Proof. reflexivity. Qed.

Example readiness_clears_on_last_close :
  isReady (state_after (run [AddConnection 1; Connect "S" None]) new) = true
  ∧ isReady (state_after
               (run [AddConnection 1; Connect "S" None; RemoveConnection 1]) new)
    = false.
Proof. split; reflexivity. Qed.

Lemma handleMessage_unknown_handle_witness :
  calls_of (handleMessage 7 joinA) one_joined = []
  ∧ state_after (handleMessage 7 joinA) one_joined = one_joined.
Proof.
  destruct (handleMessage_unknown_handle one_joined 7 joinA)
    as (_ & Hcalls & Hstate & _); [reflexivity|].
  exact (conj Hcalls Hstate).
Defined.

Lemma handleMessage_malformed_witness :
  completion_of (handleMessage 1 (inr [Byte.xff])) one_joined = Normal ()
  ∧ calls_of (handleMessage 1 (inr [Byte.xff])) one_joined = [ConsoleError]
  ∧ connections (state_after (handleMessage 1 (inr [Byte.xff])) one_joined)
    = connections one_joined.
Proof.
  destruct (handleMessage_malformed one_joined 1 (inr [Byte.xff])
              {| ws := 1; peerId := Some "A"; peerMetadata := None |})
    as (Hc & Hcalls & _ & Hconns & _); [reflexivity|reflexivity|].
  exact (conj Hc (conj Hcalls Hconns)).
Defined.

Lemma join_records_latest_identity_witness :
  identity_of 1 (state_after (handleMessage 1 joinA)
                   (state_after (addConnection 1) new)) = Some "A"
  ∧ identity_of 1 (state_after (handleMessage 1 joinB)
                     (state_after (handleMessage 1 joinA)
                        (state_after (addConnection 1) new))) = Some "B".
Proof.
  apply (join_records_latest_identity (state_after (addConnection 1) new)
           1 joinA joinB
           {| join_senderId := "A"; join_peerMetadata := None;
              supportedProtocolVersions := ["1"] |}
           {| join_senderId := "B"; join_peerMetadata := None;
              supportedProtocolVersions := ["1"] |}).
  - eexists. reflexivity.
  - reflexivity.
  - reflexivity.
Defined.

(** C3 (as stated) fails: the connection of handle 1 joined as ["A"]; a
    second join frame with senderId ["B"] leaves ["B"] recorded, not
    ["A"]. *)
Lemma second_join_overwrites_identity :
  identity_of 1 one_joined = Some "A"
  ∧ identity_of 1 (state_after (handleMessage 1 joinB) one_joined) = Some "B"
  ∧ identity_of 1 (state_after (handleMessage 1 joinB) one_joined) ≠ Some "A".
Proof. split_and!; [reflexivity|reflexivity|discriminate]. Qed.

Lemma handleMessage_join_handshake_witness :
  calls_of (handleMessage 1 joinA)
    (state_after (run [AddConnection 1; Connect "S" None]) new)
  = [WsSend 1 (cbor_encode (EncPeer
       {| peer_senderId := "S"; peer_peerMetadata := None;
          peer_targetId := "A"; selectedProtocolVersion := "1" |}));
     Emit (PeerCandidate "A" [])].
Proof.
  destruct (handleMessage_join_handshake
              (state_after (run [AddConnection 1; Connect "S" None]) new)
              1 joinA
              {| ws := 1; peerId := None; peerMetadata := None |}
              {| join_senderId := "A"; join_peerMetadata := None;
                 supportedProtocolVersions := ["1"] |})
    as (_ & _ & _ & Hreply & _); [reflexivity|reflexivity|].
  apply (Hreply "S"); [reflexivity|discriminate].
Defined.

(** C9 (as stated) fails: the relay is bound, by [connect], to the empty
    id (and [isReady] holds), yet a join frame gets no peer frame back,
    only the peer-candidate event is emitted. *)
Lemma empty_selfId_sends_no_peer_frame :
  this_peerId bound_empty = Some ""
  ∧ isReady bound_empty = true
  ∧ calls_of (handleMessage 1 joinA) bound_empty = [Emit (PeerCandidate "A" [])].
Proof. split_and!; reflexivity. Qed.

Lemma send_unicast_witness :
  calls_of (send all_open (sample_message (Some "B") [])) two_joined
  = [WsSend 2 (cbor_encode (EncMessage (sample_message (Some "B") [])))].
Proof.
  destruct (send_unicast two_joined all_open (sample_message (Some "B") []) "B")
    as (_ & _ & Hcalls & _); [reflexivity|discriminate|].
  exact Hcalls.
Defined.

(** C5 (as stated) fails: the frame carries a [targetId], the empty
    string; no connection has that identity, yet the frame is written to
    both connections, whose identities are ["A"] and ["B"]. *)
Lemma empty_targetId_is_broadcast :
  targetId (sample_message (Some "") []) = Some ""
  ∧ identity_of 1 two_joined = Some "A"
  ∧ identity_of 2 two_joined = Some "B"
  ∧ calls_of (send all_open (sample_message (Some "") [])) two_joined
    = [WsSend 1 [Byte.x02]; WsSend 2 [Byte.x02]].
Proof. split_and!; reflexivity. Qed.

Lemma send_broadcast_witness :
  calls_of (send all_open (sample_message (None) [Byte.x07])) two_joined
  = [WsSend 1 [Byte.x01; Byte.x07]; WsSend 2 [Byte.x01; Byte.x07]].
Proof.
  destruct (send_broadcast two_joined all_open (sample_message (None) [Byte.x07]))
    as (_ & _ & Hcalls & _); [reflexivity|].
  exact Hcalls.
Defined.

(** C6 (as stated) fails: the connection of handle 1 has a bound peer
    identity, the empty id its join frame carried, and an open transport,
    yet a broadcast writes nothing to it. *)
Lemma empty_identity_gets_no_broadcast :
  targetId (sample_message (None) [Byte.x07]) = None
  ∧ identity_of 1 joined_empty = Some ""
  ∧ all_open 1 = READY_STATE_OPEN
  ∧ calls_of (send all_open (sample_message (None) [Byte.x07])) joined_empty = [].
Proof. split_and!; reflexivity. Qed.

End Examples.

(** * Further properties of the storage adapter *)

Lemma str_app_assoc (s t u : string) : (s +:+ t) +:+ u = s +:+ t +:+ u.
Proof.
  induction s as [|a s IH]; [done|].
  change ((String a s +:+ t) +:+ u) with (String a ((s +:+ t) +:+ u)).
  by rewrite IH.
Qed.

Lemma str_length_app (s t : string) :
  String.length (s +:+ t) = String.length s + String.length t.
Proof.
  induction s as [|a s IH]; [done|].
  change (String a s +:+ t) with (String a (s +:+ t)). simpl. by rewrite IH.
Qed.

(** A string never starts with itself followed by one more character. *)
Lemma not_startsWith_longer (s : string) (c : ascii) :
  ¬ Is_true (Js.startsWith (s +:+ String c "") s).
Proof.
  intros [rest Heq]%startsWith_app.
  apply (f_equal String.length) in Heq.
  rewrite !str_length_app in Heq. simpl in Heq. lia.
Qed.

Lemma join_app (p rest : list string) :
  p ≠ [] → rest ≠ [] →
  Js.join "/" (p ++ rest) = Js.join "/" p +:+ "/" +:+ Js.join "/" rest.
Proof.
  intros Hp Hrest. induction p as [|seg p IH]; [done|].
  destruct p as [|seg' p].
  - destruct rest as [|r rest]; done.
  - change (Js.join "/" ((seg :: seg' :: p) ++ rest))
      with (seg +:+ "/" +:+ Js.join "/" ((seg' :: p) ++ rest)).
    rewrite IH by done.
    change (Js.join "/" (seg :: seg' :: p))
      with (seg +:+ "/" +:+ Js.join "/" (seg' :: p)).
    by rewrite !str_app_assoc.
Qed.

(** Every piece [split] produces is free of the separator. *)
Lemma split_pieces_lack c s : Forall (λ piece, Js.lacks c piece = true) (Js.split c s).
Proof.
  induction s as [|a s IH]; simpl; [by repeat constructor|].
  destruct (Ascii.eqb a c) eqn:Ha.
  - by constructor.
  - destruct (Js.split c s) as [|piece pieces]; [by repeat constructor; simpl; rewrite Ha|].
    apply Forall_cons in IH as [Hpiece Hpieces].
    constructor; [|done]. simpl. by rewrite Ha, Hpiece.
Qed.

(** The flattened forms of two well-formed keys agree only if the keys do. *)
Lemma keyToString_inj_wellformed (k k' : StorageKey) :
  k ≠ [] → separatorFree k → k' ≠ [] → separatorFree k' →
  keyToString k = keyToString k' → k = k'.
Proof.
  intros Hne Hk Hne' Hk' Heq.
  destruct k as [|seg rest]; [done|]. destruct k' as [|seg' rest']; [done|].
  apply Forall_cons in Hk as [Hseg Hrest].
  apply Forall_cons in Hk' as [Hseg' Hrest'].
  rewrite <- (split_join_cons seg rest), <- (split_join_cons seg' rest') by done.
  unfold keyToString in Heq. by rewrite Heq.
Qed.

(** X1: [load] after [save] under well-formed keys (non-empty, no ['/'] in
    a segment): the same key gives the saved bytes back, any other key gives
    what it gave before. *)
Theorem load_after_save (bucket : R2Bucket) (k k' : StorageKey) (d : bytes) :
  k ≠ [] → separatorFree k → k' ≠ [] → separatorFree k' →
  load (save bucket k d) k' = if decide (k = k') then Some d else load bucket k'.
Proof.
  intros Hne Hk Hne' Hk'. unfold load, save, bucket_get, bucket_put; cbv zeta.
  case_decide as Heq.
  - subst. apply lookup_insert_eq.
  - apply lookup_insert_ne. intros Hflat. apply Heq.
    by apply keyToString_inj_wellformed.
Qed.

Lemma load_after_save_witness :
  load (save ∅ ["doc1"; "snapshot"] [Byte.x01]) ["doc1"; "incremental"] = None
  ∧ load (save ∅ ["doc1"; "snapshot"] [Byte.x01]) ["doc1"; "snapshot"]
    = Some [Byte.x01].
Proof.
  split.
  - etrans.
    + apply (load_after_save ∅ ["doc1"; "snapshot"] ["doc1"; "incremental"]);
        try discriminate; repeat constructor.
    + reflexivity.
  - etrans.
    + apply (load_after_save ∅ ["doc1"; "snapshot"] ["doc1"; "snapshot"]);
        try discriminate; repeat constructor.
    + reflexivity.
Defined.

(** X2: keys are told apart by their flattened form only: [save] under one
    key is read back by [load] under every key with the same flattened form
    (so [["a/b"]] and [["a","b"]] name one object), and [remove] under one
    deletes the object for all of them. *)
Theorem keys_with_one_flat_form_alias (bucket : R2Bucket) (k k' : StorageKey)
    (d : bytes) :
  keyToString k = keyToString k' →
  load (save bucket k d) k' = Some d
  ∧ load (remove (save bucket k d) k') k = None
  ∧ save (save bucket k' d) k d = save bucket k d.
Proof.
  intros Heq. unfold load, save, remove, bucket_get, bucket_put, bucket_delete;
    cbv zeta. rewrite <- Heq. split_and!.
  - apply lookup_insert_eq.
  - apply lookup_delete_eq.
  - apply insert_insert_eq.
Qed.

Lemma keys_with_one_flat_form_alias_witness :
  load (save ∅ ["a/b"] [Byte.x01]) ["a"; "b"] = Some [Byte.x01].
Proof.
  apply (keys_with_one_flat_form_alias ∅ ["a/b"] ["a"; "b"] [Byte.x01]).
  reflexivity.
Defined.

(** X3: [remove] leaves nothing under the key, leaves every object with
    another flattened key alone, does nothing when the object is absent, and
    can be repeated; [save] overwrites. *)
Theorem remove_and_overwrite (bucket : R2Bucket) (k : StorageKey) (d d' : bytes) :
  load (remove bucket k) k = None
  ∧ (∀ objectKey, objectKey ≠ keyToString k →
       remove bucket k !! objectKey = bucket !! objectKey)
  ∧ (load bucket k = None → remove bucket k = bucket)
  ∧ remove (remove bucket k) k = remove bucket k
  ∧ remove (save bucket k d) k = remove bucket k
  ∧ save (save bucket k d) k d' = save bucket k d'.
Proof.
  unfold load, save, remove, bucket_get, bucket_put, bucket_delete; cbv zeta.
  split_and!.
  - apply lookup_delete_eq.
  - intros objectKey Hne. by apply lookup_delete_ne.
  - apply delete_id.
  - apply delete_id, lookup_delete_eq.
  - apply delete_insert_eq.
  - apply insert_insert_eq.
Qed.

(** X4: every object key, whatever string it is, unflattens to a non-empty
    key whose segments contain no ['/'] and which flattens back to the same
    string; so unflattening again after that gives the same key. *)
Theorem stringToKey_wellformed (objectKey : string) :
  stringToKey objectKey ≠ []
  ∧ separatorFree (stringToKey objectKey)
  ∧ keyToString (stringToKey objectKey) = objectKey
  ∧ stringToKey (keyToString (stringToKey objectKey)) = stringToKey objectKey.
Proof.
  split_and!.
  - apply split_nonempty.
  - apply split_pieces_lack.
  - apply join_split.
  - unfold keyToString, stringToKey. by rewrite join_split.
Qed.

Lemma removeRange_unmatched (bucket : R2Bucket) (keyPrefix : StorageKey) :
  (∀ objectKey, is_Some (bucket !! objectKey) → ¬ matches keyPrefix objectKey) →
  removeRange bucket keyPrefix = bucket.
Proof.
  intros Hnone. apply map_eq. intros o. rewrite lookup_removeRange.
  case_decide as Hin; [|done].
  apply elem_of_page in Hin as [Hsome Hm]. by destruct (Hnone o).
Qed.

Lemma size_foldl_delete (objects : list string) (bucket : R2Bucket) :
  NoDup objects → (∀ o, o ∈ objects → is_Some (bucket !! o)) →
  size (foldl bucket_delete bucket objects) + length objects = size bucket.
Proof.
  intros Hnodup. revert bucket.
  induction Hnodup as [|o objects Hnin Hnodup IH]; intros bucket Hall; simpl.
  - lia.
  - assert (is_Some (bucket !! o)) as Ho by (apply Hall, elem_of_cons; by left).
    rewrite Nat.add_succ_r, IH.
    + unfold bucket_delete. rewrite map_size_delete_Some by done.
      pose proof (map_size_ne_0_lookup_2 bucket o Ho). lia.
    + intros o' Ho'. unfold bucket_delete. rewrite lookup_delete_ne.
      * apply Hall, elem_of_cons. by right.
      * intros ->. done.
Qed.

(** X5: [removeRange] only deletes, and only stored objects under the
    listing prefix, one page of them per call: what it leaves was there
    before, the bucket shrinks by the number of matching keys but by no more
    than 1000, and nothing changes when no stored key matches.  While at most
    1000 stored keys match, it deletes them all and a second call changes
    nothing more. *)
Theorem removeRange_only_deletes (bucket : R2Bucket) (keyPrefix : StorageKey) :
  let matching := bucket_matching bucket (listOptions keyPrefix) in
  (∀ objectKey v, removeRange bucket keyPrefix !! objectKey = Some v →
     bucket !! objectKey = Some v)
  ∧ (∀ objectKey, bucket !! objectKey ≠ removeRange bucket keyPrefix !! objectKey →
       matches keyPrefix objectKey)
  ∧ size (removeRange bucket keyPrefix) + page_limit `min` length matching
    = size bucket
  ∧ ((∀ objectKey, is_Some (bucket !! objectKey) → ¬ matches keyPrefix objectKey) →
     removeRange bucket keyPrefix = bucket)
  ∧ (length matching ≤ page_limit →
     (∀ objectKey, matches keyPrefix objectKey →
        removeRange bucket keyPrefix !! objectKey = None)
     ∧ removeRange (removeRange bucket keyPrefix) keyPrefix
       = removeRange bucket keyPrefix).
Proof.
  intros matching. split_and!.
  - intros o v. apply lookup_removeRange_Some.
  - intros o Hne. destruct (decide (matches keyPrefix o)) as [|Hm]; [done|].
    destruct Hne. symmetry. by apply lookup_removeRange_unmatched.
  - unfold removeRange; cbv zeta.
    rewrite <- (size_foldl_delete
                  (objects (bucket_list bucket (listOptions keyPrefix))) bucket).
    + f_equal. unfold bucket_list; cbn [objects]. symmetry. apply length_take.
    + apply NoDup_page.
    + intros o Ho. by apply elem_of_page in Ho as [? _].
  - apply removeRange_unmatched.
  - intros Hle.
    assert (∀ o, matches keyPrefix o → removeRange bucket keyPrefix !! o = None)
      as Hgone.
    { intros o Hm. rewrite lookup_removeRange, page_complete by done.
      case_decide as Hin; [done|].
      destruct (bucket !! o) as [v|] eqn:E; [|done].
      destruct Hin. apply elem_of_bucket_matching. eauto. }
    split; [done|]. apply removeRange_unmatched.
    intros o [v Hv] Hm. by rewrite (Hgone o Hm) in Hv.
Qed.

(** X6: an object saved under a key that extends a non-empty prefix by at
    least one segment is returned by [loadRange] of that prefix, with the
    saved bytes, provided the stored keys under the prefix, the new one
    counted, are at most the 1000 one listing call returns; the chunk
    carries the saved key itself when its segments contain no ['/']. *)
Theorem loadRange_after_save (bucket : R2Bucket) (keyPrefix rest : StorageKey)
    (d : bytes) :
  keyPrefix ≠ [] → rest ≠ [] →
  length (bucket_matching (save bucket (keyPrefix ++ rest) d)
            (listOptions keyPrefix)) ≤ page_limit →
  {| key := stringToKey (keyToString (keyPrefix ++ rest)); data := Some d |}
    ∈ loadRange (save bucket (keyPrefix ++ rest) d) keyPrefix
  ∧ (separatorFree (keyPrefix ++ rest) →
     {| key := keyPrefix ++ rest; data := Some d |}
       ∈ loadRange (save bucket (keyPrefix ++ rest) d) keyPrefix).
Proof.
  intros Hp Hrest Hle.
  assert ({| key := stringToKey (keyToString (keyPrefix ++ rest)); data := Some d |}
            ∈ loadRange (save bucket (keyPrefix ++ rest) d) keyPrefix) as Hin.
  { apply elem_of_loadRange. exists (keyToString (keyPrefix ++ rest)).
    rewrite page_complete by done. rewrite elem_of_bucket_matching.
    unfold save, bucket_put; cbv zeta. rewrite lookup_insert_eq.
    split; [done|]. split; [eauto|].
    apply startsWith_app. unfold keyToString at 1. rewrite join_app by done.
    fold (keyToString keyPrefix). unfold listOptions; cbv zeta.
    destruct (Js.endsWith sep (keyToString keyPrefix)).
    - exists ("/" +:+ Js.join "/" rest). by rewrite app_empty_r.
    - exists (Js.join "/" rest). by rewrite str_app_assoc. }
  split; [done|]. intros Hk.
  destruct (keyPrefix ++ rest) as [|seg segs] eqn:E.
  { by destruct keyPrefix. }
  apply Forall_cons in Hk as [Hseg Hsegs].
  unfold stringToKey, keyToString in Hin.
  by rewrite split_join_cons in Hin.
Qed.

Lemma loadRange_after_save_witness :
  {| key := ["doc1"; "snapshot"; "h"]; data := Some [Byte.x01] |}
    ∈ loadRange (save ∅ (["doc1"] ++ ["snapshot"; "h"]) [Byte.x01]) ["doc1"].
Proof.
  apply (loadRange_after_save ∅ ["doc1"] ["snapshot"; "h"] [Byte.x01]).
  - discriminate.
  - discriminate.
  - vm_compute. lia.
  - repeat constructor.
Defined.

(** X7: the empty prefix does not mean "everything": its listing prefix is
    ["/"], so [loadRange []] returns only keys whose first segment is the
    empty string, and when no stored key starts with ['/'] it returns nothing
    and [removeRange []] deletes nothing. *)
Theorem empty_prefix_range (bucket : R2Bucket) :
  listOptions [] = "/"
  ∧ (∀ c, c ∈ loadRange bucket [] → ∃ segments, key c = "" :: segments)
  ∧ ((∀ objectKey, is_Some (bucket !! objectKey) →
        ¬ Is_true (Js.startsWith "/" objectKey)) →
     loadRange bucket [] = [] ∧ removeRange bucket [] = bucket).
Proof.
  split_and!.
  - reflexivity.
  - intros c (o & -> & _ & Hm)%loadRange_sound. simpl.
    apply startsWith_app in Hm as [rest ->].
    exists (stringToKey rest). reflexivity.
  - intros Hnone. split.
    + apply loadRange_nil. intros o Hm.
      destruct (bucket !! o) as [v|] eqn:E; [|done].
      destruct (Hnone o); eauto.
    + apply removeRange_unmatched. intros o Ho Hm. by apply (Hnone o).
Qed.

(** X8: when the flattened prefix does not end with ['/'], the object stored
    under the prefix key itself is outside the range: [loadRange] does not
    return it and [removeRange] does not delete it. *)
Theorem prefix_object_outside_range (bucket : R2Bucket) (keyPrefix : StorageKey) :
  Js.endsWith sep (keyToString keyPrefix) = false →
  (∀ c, c ∈ loadRange bucket keyPrefix →
     keyToString (key c) ≠ keyToString keyPrefix)
  ∧ load (removeRange bucket keyPrefix) keyPrefix = load bucket keyPrefix.
Proof.
  intros Hends.
  assert (¬ matches keyPrefix (keyToString keyPrefix)) as Hout.
  { unfold matches, listOptions; cbv zeta. rewrite Hends.
    apply not_startsWith_longer. }
  split.
  - intros c (o & -> & _ & Hm)%loadRange_sound. simpl.
    rewrite keyToString_stringToKey. intros ->. done.
  - unfold load, bucket_get; cbv zeta. by apply lookup_removeRange_unmatched.
Qed.

Lemma prefix_object_outside_range_witness :
  load (removeRange {[ "doc1" := [Byte.x01]; "doc1/a" := [] ]} ["doc1"]) ["doc1"]
  = load {[ "doc1" := [Byte.x01]; "doc1/a" := [] ]} ["doc1"].
Proof.
  apply (prefix_object_outside_range _ ["doc1"]). reflexivity.
Defined.

Example prefix_object_kept :
  removeRange {[ "doc1" := [Byte.x01]; "doc1/a" := [] ]} ["doc1"]
  = {[ "doc1" := [Byte.x01] ]}.
Proof. vm_compute. reflexivity. Qed.

(** * Further properties of the relay *)

Section MapFurther.
Context {V : Type}.
Implicit Types (m : list (WebSocket * V)) (k : WebSocket) (v : V).

Lemma Map_get_None k m : Map_get k m = None ↔ k ∉ m.*1.
Proof.
  induction m as [|[k' v'] m IH]; csimpl.
  - split; [intros _; apply not_elem_of_nil|done].
  - rewrite not_elem_of_cons. case_decide as Hk.
    + split; [done|]. intros [Hne _]. by destruct Hne.
    + rewrite IH. split; [by intros ?; split|by intros [_ ?]].
Qed.

Lemma Map_get_Some_elem k v m : Map_get k m = Some v → (k, v) ∈ m.
Proof.
  induction m as [|[k' v'] m IH]; simpl; [done|].
  case_decide as Hk.
  - intros [= ->]. subst. apply elem_of_cons. by left.
  - intros Hget. apply elem_of_cons. right. by apply IH.
Qed.

Lemma Map_get_elem_NoDup k v m : NoDup m.*1 → (k, v) ∈ m → Map_get k m = Some v.
Proof.
  induction m as [|[k' v'] m IH]; csimpl.
  - by intros _ ?%elem_of_nil.
  - rewrite NoDup_cons. intros [Hnin Hm] [[= -> ->]|Hin]%elem_of_cons.
    + by rewrite decide_True.
    + rewrite decide_False; [by apply IH|].
      intros ->. apply Hnin. by apply (list_elem_of_fmap_2 fst _ (k, v)).
Qed.

Lemma Map_set_keys k v m :
  (Map_set k v m).*1 = if decide (k ∈ m.*1) then m.*1 else m.*1 ++ [k].
Proof.
  induction m as [|[k' v'] m IH]; csimpl.
  - done.
  - destruct (decide (k' = k)) as [->|Hne]; csimpl.
    + rewrite decide_True; [done|]. apply elem_of_cons. by left.
    + rewrite IH. destruct (decide (k ∈ m.*1)) as [Hin|Hnin].
      * rewrite decide_True; [done|]. apply elem_of_cons. by right.
      * rewrite decide_False; [done|].
        intros [?|?]%elem_of_cons; [by subst|done].
Qed.

Lemma Map_set_NoDup k v m : NoDup m.*1 → NoDup (Map_set k v m).*1.
Proof.
  intros Hm. rewrite Map_set_keys. case_decide as Hin; [done|].
  apply NoDup_app. split_and!; [done| |apply NoDup_singleton].
  intros x Hx ->%list_elem_of_singleton. done.
Qed.

Lemma Map_set_Forall (P : WebSocket * V → Prop) k v m :
  P (k, v) → Forall P m → Forall P (Map_set k v m).
Proof.
  intros Hkv Hm. induction Hm as [|[k' v'] m Hx Hm IH]; simpl.
  - by repeat constructor.
  - case_decide as Hk; subst; by constructor.
Qed.

Lemma Map_set_length_present k v v' m :
  Map_get k m = Some v' → Map_size (Map_set k v m) = Map_size m.
Proof.
  unfold Map_size. induction m as [|[k0 v0] m IH]; simpl; [done|].
  case_decide as Hk; simpl; [done|]. intros Hget. by rewrite IH.
Qed.

Lemma Map_set_absent k v m : Map_get k m = None → Map_set k v m = m ++ [(k, v)].
Proof.
  induction m as [|[k0 v0] m IH]; simpl; [done|].
  case_decide as Hk; [done|]. intros Hget. by rewrite IH.
Qed.

Lemma Map_delete_get_eq k m : Map_get k (Map_delete k m) = None.
Proof.
  apply Map_get_None. unfold Map_delete.
  intros [[k' v'] [Hk [Hne _]%list_elem_of_filter]]%list_elem_of_fmap.
  simpl in *. by subst.
Qed.

Lemma Map_delete_get_ne k k' m : k ≠ k' → Map_get k' (Map_delete k m) = Map_get k' m.
Proof.
  intros Hne. unfold Map_delete. induction m as [|[k0 v0] m IH]; [done|].
  rewrite filter_cons. simpl. destruct (decide (k0 ≠ k)) as [Hk|Hk]; simpl.
  - by rewrite IH.
  - assert (k0 = k) as -> by (by destruct (decide (k0 = k))).
    by rewrite decide_False.
Qed.

Lemma Map_delete_absent k m : Map_get k m = None → Map_delete k m = m.
Proof.
  unfold Map_delete. induction m as [|[k0 v0] m IH]; [done|]. simpl.
  case_decide as Hk; [done|]. intros Hget.
  rewrite filter_cons, decide_True by done. by rewrite IH.
Qed.

Lemma Map_delete_NoDup k m : NoDup m.*1 → NoDup (Map_delete k m).*1.
Proof.
  unfold Map_delete. induction m as [|[k0 v0] m IH]; [done|].
  rewrite fmap_cons, NoDup_cons. intros [Hnin Hm].
  rewrite filter_cons. case_decide; [|by apply IH].
  rewrite fmap_cons. apply NoDup_cons. split; [|by apply IH].
  intros [[k' v'] [Hk [_ Hin]%list_elem_of_filter]]%list_elem_of_fmap.
  simpl in *. subst. apply Hnin. by apply (list_elem_of_fmap_2 fst _ (k', v')).
Qed.
End MapFurther.

Section RelayFurther.
Context {protocol : Protocol} {cbor : Cbor}.
Implicit Types (this : Adapter) (socket : WebSocket) (message : string + bytes).

Lemma addConnection_result this socket :
  addConnection socket this
  = (Normal (),
     {| connections :=
          Map_set socket {| ws := socket; peerId := None; peerMetadata := None |}
            (connections this);
        isConnected := isConnected this;
        this_peerId := this_peerId this;
        this_peerMetadata := this_peerMetadata this |},
     []).
Proof. reflexivity. Qed.

Lemma removeConnection_result this socket :
  removeConnection socket this
  = (Normal (),
     {| connections := Map_delete socket (connections this);
        isConnected :=
          isConnected this
          && negb (Map_size (Map_delete socket (connections this)) =? 0);
        this_peerId := this_peerId this;
        this_peerMetadata := this_peerMetadata this |},
     []).
Proof.
  run_method.
  destruct (Map_delete socket (connections this)); simpl.
  - by rewrite andb_false_r.
  - by rewrite andb_true_r.
Qed.

Lemma connect_result this id metadata :
  connect id metadata this
  = (Normal (),
     {| connections := connections this;
        isConnected := isConnected this || (0 <? Map_size (connections this));
        this_peerId := Some id;
        this_peerMetadata := metadata |},
     []).
Proof.
  run_method. destruct (connections this); simpl; [|by rewrite orb_true_r].
  by rewrite orb_false_r.
Qed.

Lemma close_all_calls (readyState : Transports) entries this :
  close_all readyState entries this
  = (Normal (), this,
     WsClose <$> filter (λ w, readyState w = READY_STATE_OPEN) entries.*1).
Proof.
  revert this. induction entries as [|[w c] entries IH]; intros this; [done|].
  rewrite fmap_cons, filter_cons. cbn [close_all fst].
  unfold mbind, M_bind, when, call, mret, M_ret.
  destruct (decide (readyState w = READY_STATE_OPEN)) as [Hopen|Hopen].
  - rewrite (bool_decide_eq_true_2 _ Hopen). simpl. by rewrite IH.
  - rewrite (bool_decide_eq_false_2 _ Hopen). simpl. by rewrite IH.
Qed.

Lemma disconnect_result (readyState : Transports) this :
  disconnect readyState this
  = (Normal (),
     {| connections := []; isConnected := false;
        this_peerId := this_peerId this;
        this_peerMetadata := this_peerMetadata this |},
     (WsClose <$> filter (λ w, readyState w = READY_STATE_OPEN)
                    (connections this).*1)
     ++ [Emit CloseEvent]).
Proof.
  unfold disconnect, mbind, M_bind, get, set_connections, set_isConnected,
    modify, call.
  rewrite close_all_calls. simpl. done.
Qed.

Lemma send_truthy_target (readyState : Transports) (m : Message) target this :
  targetId m = Some target → target ≠ "" →
  send readyState m this = send_to readyState m target (connections this) this.
Proof.
  intros Htarget Hne. unfold send, mbind, M_bind, get. rewrite Htarget. simpl.
  rewrite truthy_nonempty by done.
  by destruct (send_to readyState m target (connections this) this) as [[[] ?] ?].
Qed.

Lemma send_falsy_target (readyState : Transports) (m : Message) this :
  truthy_opt (targetId m) = false →
  send readyState m this
  = send_all readyState (cbor_encode (EncMessage m)) (connections this) this.
Proof.
  intros Htarget. unfold send, mbind, M_bind, get. rewrite Htarget. simpl.
  by destruct (send_all readyState _ (connections this) this) as [[[] ?] ?].
Qed.

(** *** The registry over sequences of calls *)

Lemma registry_ok_step op this :
  registry_ok this → registry_ok (state_after (run_op op) this).
Proof.
  intros [Hnodup Hws]. unfold registry_ok, state_after.
  destruct op as [socket|socket|socket message|id metadata|readyState m|readyState];
    cbn [run_op].
  - rewrite addConnection_result. simpl.
    split; [by apply Map_set_NoDup|by apply Map_set_Forall].
  - rewrite removeConnection_result. simpl.
    split; [by apply Map_delete_NoDup|].
    rewrite Forall_forall in Hws. apply Forall_forall.
    intros e [_ Hin]%list_elem_of_filter. by apply Hws.
  - destruct (Map_get socket (connections this)) as [connection|] eqn:Hget.
    + destruct (cbor_decode (buffer_of message)) as [[joinMsg|m|]|] eqn:Hdec.
      * rewrite (handleMessage_join _ _ _ _ _ Hget Hdec). simpl.
        split; [by apply Map_set_NoDup|]. apply Map_set_Forall; [|done].
        apply Map_get_Some_elem in Hget.
        rewrite Forall_forall in Hws. apply (Hws _ Hget).
      * by rewrite (handleMessage_other _ _ _ _ _ Hget Hdec).
      * by rewrite (handleMessage_nullish _ _ _ _ Hget Hdec).
      * by rewrite (handleMessage_undecodable _ _ _ _ Hget Hdec).
    + by rewrite (handleMessage_unregistered _ _ _ Hget).
  - by rewrite connect_result.
  - destruct (send_state readyState m this) as [_ Hstate].
    unfold state_after in Hstate. by rewrite Hstate.
  - rewrite disconnect_result. simpl. split; [apply NoDup_nil_2|constructor].
Qed.

Lemma registry_ok_run ops : registry_ok (state_after (run ops) new).
Proof.
  induction ops as [|op ops IH] using rev_ind.
  - split; [apply NoDup_nil_2|constructor].
  - destruct (run_history ops) as (Hc & _).
    destruct (run_snoc ops op new Hc) as [-> _].
    by apply registry_ok_step.
Qed.

(** X9: after every sequence of calls on a new adapter, the registry holds
    each transport handle at most once, every record carries the handle it
    is stored under, and so a handle has one recorded identity at most. *)
Theorem registry_handles_unique (ops : list Op) :
  let this := state_after (run ops) new in
  NoDup (connections this).*1
  ∧ (∀ socket connection,
       (socket, connection) ∈ connections this → ws connection = socket)
  ∧ (∀ socket connection connection',
       (socket, connection) ∈ connections this →
       (socket, connection') ∈ connections this → connection = connection')
  ∧ (∀ socket connection,
       (socket, connection) ∈ connections this ↔
       Map_get socket (connections this) = Some connection).
Proof.
  intros this. destruct (registry_ok_run ops) as [Hnodup Hws]. fold this in Hnodup, Hws.
  assert (∀ socket connection connection',
       (socket, connection) ∈ connections this →
       (socket, connection') ∈ connections this → connection = connection') as Hfun.
  { intros socket c c' Hc Hc'.
    apply (Map_get_elem_NoDup _ _ _ Hnodup) in Hc, Hc'. congruence. }
  split_and!; [done| |done|].
  - intros socket connection Hin. rewrite Forall_forall in Hws.
    apply (Hws _ Hin).
  - intros socket connection. split; [|apply Map_get_Some_elem].
    by apply Map_get_elem_NoDup.
Qed.

(** *** Registering and unregistering *)

(** X10: [addConnection] stores an unjoined record under the handle, also
    when the handle was registered and joined before (its identity is reset
    and its place in the order kept; a new handle goes to the end); no other
    record, the readiness flag and the relay's identity change, and nothing
    is called outside. *)
Theorem addConnection_registers this socket :
  let this' := state_after (addConnection socket) this in
  completion_of (addConnection socket) this = Normal ()
  ∧ calls_of (addConnection socket) this = []
  ∧ Map_get socket (connections this')
    = Some {| ws := socket; peerId := None; peerMetadata := None |}
  ∧ identity_of socket this' = None
  ∧ (∀ other, other ≠ socket →
       Map_get other (connections this') = Map_get other (connections this))
  ∧ (connections this').*1
    = (if decide (socket ∈ (connections this).*1) then (connections this).*1
       else (connections this).*1 ++ [socket])
  ∧ isConnected this' = isConnected this
  ∧ this_peerId this' = this_peerId this.
Proof.
  intros this'. subst this'. unfold completion_of, calls_of, state_after, identity_of.
  rewrite addConnection_result. simpl. split_and!; try done.
  - apply Map_get_set_eq.
  - by rewrite Map_get_set_eq.
  - intros other Hne. by apply Map_get_set_ne.
  - apply Map_set_keys.
Qed.

(** X11: [removeConnection] leaves the handle unregistered and every other
    record as it was, calls nothing outside, clears the readiness flag
    exactly when no connection is left, and for a handle that is not
    registered changes nothing on an adapter whose flag is sound. *)
Theorem removeConnection_unregisters this socket :
  let this' := state_after (removeConnection socket) this in
  completion_of (removeConnection socket) this = Normal ()
  ∧ calls_of (removeConnection socket) this = []
  ∧ Map_get socket (connections this') = None
  ∧ (∀ other, other ≠ socket →
       Map_get other (connections this') = Map_get other (connections this))
  ∧ (connections this' = [] → isConnected this' = false)
  ∧ (connections this' ≠ [] → isConnected this' = isConnected this)
  ∧ this_peerId this' = this_peerId this
  ∧ (flag_sound this → Map_get socket (connections this) = None → this' = this).
Proof.
  intros this'. subst this'. unfold completion_of, calls_of, state_after.
  rewrite removeConnection_result. simpl. split_and!; try done.
  - apply Map_delete_get_eq.
  - intros other Hne. by apply Map_delete_get_ne.
  - intros ->. simpl. apply andb_false_r.
  - intros Hne. destruct (Map_delete socket (connections this)); [done|].
    simpl. apply andb_true_r.
  - intros Hflag Hget. rewrite (Map_delete_absent _ _ Hget).
    destruct this as [cs ic id md]; simpl in *. f_equal.
    destruct cs as [|e cs]; simpl; [|apply andb_true_r].
    rewrite andb_false_r. destruct ic; [|done].
    by destruct (Hflag eq_refl).
Qed.

(** X12: [disconnect] closes every registered transport that is open, once
    each and in registry order, then emits the close event; afterwards no
    connection is registered and [isReady] is false, while the relay's
    identity stays bound. *)
Theorem disconnect_closes_all (readyState : Transports) this :
  let this' := state_after (disconnect readyState) this in
  completion_of (disconnect readyState) this = Normal ()
  ∧ calls_of (disconnect readyState) this
    = (WsClose <$> filter (λ w, readyState w = READY_STATE_OPEN)
                     (connections this).*1)
      ++ [Emit CloseEvent]
  ∧ connections this' = []
  ∧ isReady this' = false
  ∧ this_peerId this' = this_peerId this
  ∧ this_peerMetadata this' = this_peerMetadata this.
Proof.
  intros this'. subst this'. unfold completion_of, calls_of, state_after.
  rewrite disconnect_result. simpl. by split_and!.
Qed.

(** X13: [connect] binds the relay's identity and metadata, replacing what
    an earlier [connect] bound, calls nothing outside and leaves the registry
    alone; after any sequence of calls on a new adapter, [isReady] right
    after [connect] holds exactly when a connection is registered. *)
Theorem connect_binds_identity (ops : list Op) (id : PeerId)
    (metadata : option PeerMetadata) :
  let this := state_after (run ops) new in
  let this' := state_after (connect id metadata) this in
  completion_of (connect id metadata) this = Normal ()
  ∧ calls_of (connect id metadata) this = []
  ∧ this_peerId this' = Some id
  ∧ this_peerMetadata this' = metadata
  ∧ connections this' = connections this
  ∧ isReady this' = bool_decide (connections this ≠ []).
Proof.
  intros this this'. subst this'.
  unfold completion_of, calls_of, state_after at 1 2 3 4.
  rewrite connect_result. simpl. split_and!; try done.
  unfold isReady. simpl. rewrite andb_true_r.
  destruct (run_history ops) as (_ & Hflag & _). fold this in Hflag.
  destruct (connections this) as [|e cs] eqn:E; simpl.
  - rewrite orb_false_r. destruct (isConnected this) eqn:Hic; [|done].
    destruct (Hflag Hic) as [Hne _]. by rewrite E in Hne.
  - by rewrite orb_true_r.
Qed.

(** *** Inbound frames *)

(** X14: on a registered connection, a frame that decodes to a value
    other than [null] or [undefined] and is not a join frame is handed to the
    repo as it was decoded, in one message event and nothing else: nothing is
    written to any transport and the registry is unchanged, whether or not
    the connection has joined.  A frame that decodes to [null] or
    [undefined] is logged and dropped, like one that does not decode: no
    event, no write, registry unchanged. *)
Theorem handleMessage_forwards this socket message connection :
  Map_get socket (connections this) = Some connection →
  (∀ m : Message,
     cbor_decode (buffer_of message) = Some (Other m) →
     completion_of (handleMessage socket message) this = Normal ()
     ∧ calls_of (handleMessage socket message) this = [Emit (MessageEvent m)]
     ∧ connections (state_after (handleMessage socket message) this)
       = connections this
     ∧ this_peerId (state_after (handleMessage socket message) this)
       = this_peerId this)
  ∧ (cbor_decode (buffer_of message) = Some Nullish →
     completion_of (handleMessage socket message) this = Normal ()
     ∧ calls_of (handleMessage socket message) this = [ConsoleError]
     ∧ connections (state_after (handleMessage socket message) this)
       = connections this
     ∧ this_peerId (state_after (handleMessage socket message) this)
       = this_peerId this).
Proof.
  intros Hget. unfold completion_of, calls_of, state_after. split.
  - intros m Hdec. by rewrite (handleMessage_other _ _ _ _ _ Hget Hdec).
  - intros Hdec. by rewrite (handleMessage_nullish _ _ _ _ Hget Hdec).
Qed.

(** X15: once the relay is bound to a non-empty id, any frame arriving on a
    registered connection leaves [isReady] true, whatever the frame is, also
    one that does not decode; while the relay is unbound or bound to the
    empty id, no frame changes the readiness flag. *)
Theorem any_frame_marks_ready this socket message connection :
  Map_get socket (connections this) = Some connection →
  (∀ selfId, this_peerId this = Some selfId → selfId ≠ "" →
     isReady (state_after (handleMessage socket message) this) = true)
  ∧ (truthy_opt (this_peerId this) = false →
     isConnected (state_after (handleMessage socket message) this)
     = isConnected this).
Proof.
  intros Hget.
  assert (isConnected (state_after (handleMessage socket message) this)
          = isConnected this || truthy_opt (this_peerId this)
          ∧ this_peerId (state_after (handleMessage socket message) this)
            = this_peerId this) as [Hic Hid].
  { unfold state_after.
    destruct (cbor_decode (buffer_of message)) as [[joinMsg|m|]|] eqn:Hdec.
    - by rewrite (handleMessage_join _ _ _ _ _ Hget Hdec).
    - by rewrite (handleMessage_other _ _ _ _ _ Hget Hdec).
    - by rewrite (handleMessage_nullish _ _ _ _ Hget Hdec).
    - by rewrite (handleMessage_undecodable _ _ _ _ Hget Hdec). }
  split.
  - intros selfId Hself Hne. unfold isReady. rewrite Hic, Hid, Hself. simpl.
    rewrite truthy_nonempty by done. by rewrite orb_true_r.
  - intros Hfalsy. rewrite Hic, Hfalsy. apply orb_false_r.
Qed.

(** *** Outbound frames *)

(** X16: whatever the frame, [send] completes normally, leaves the adapter
    as it was, and every write it makes carries the encoded frame and goes
    to a registered connection whose transport is open and whose recorded
    identity is a non-empty id; with a non-empty [targetId] it makes at most
    one write, and with no connection registered it makes none. *)
Theorem send_writes_only_to_joined_open (readyState : Transports) (m : Message) this :
  completion_of (send readyState m) this = Normal ()
  ∧ state_after (send readyState m) this = this
  ∧ (∀ call, call ∈ calls_of (send readyState m) this →
       ∃ socket connection id,
         call = WsSend socket (cbor_encode (EncMessage m))
         ∧ (socket, connection) ∈ connections this
         ∧ peerId connection = Some id ∧ id ≠ ""
         ∧ readyState socket = READY_STATE_OPEN)
  ∧ (truthy_opt (targetId m) = true →
     length (calls_of (send readyState m) this) ≤ 1)
  ∧ (connections this = [] → calls_of (send readyState m) this = []).
Proof.
  destruct (send_state readyState m this) as [Hc Hs].
  split; [done|]. split; [done|].
  destruct (truthy_opt (targetId m)) eqn:Htruthy.
  - destruct (targetId m) as [target|] eqn:Htarget; [|done].
    assert (target ≠ "") as Hne by (by destruct target).
    unfold calls_of. rewrite (send_truthy_target _ _ _ _ Htarget Hne), send_to_first.
    simpl.
    destruct (filter _ (connections this)) as [|[socket connection] l] eqn:E; simpl.
    + split_and!; [by intros call ?%elem_of_nil|lia|done].
    + assert ((socket, connection) ∈ filter
                (λ e, peerId e.2 = Some target ∧ readyState e.1 = READY_STATE_OPEN)
                (connections this)) as Hin by (rewrite E; left).
      apply list_elem_of_filter in Hin as [[Hid Hopen] Hin]. simpl in *.
      split_and!; [|lia|].
      * intros call ->%list_elem_of_singleton.
        by exists socket, connection, target.
      * intros Hnil. by rewrite Hnil in Hin; apply elem_of_nil in Hin.
  - unfold calls_of. rewrite (send_falsy_target _ _ _ Htruthy), send_all_filter.
    simpl. split_and!; [|done|by intros ->].
    intros call [[socket connection] [-> [[Hid Hopen] Hin]%list_elem_of_filter]]%list_elem_of_fmap.
    simpl in *. destruct (peerId connection) as [id|] eqn:Eid; [|done].
    exists socket, connection, id. split_and!; try done. by intros ->.
Qed.

Lemma head_filter_Map_set (P : WebSocket * WebSocketConnection → Prop)
    `{∀ e, Decision (P e)} socket record connection
    (entries : list (WebSocket * WebSocketConnection)) :
  Map_get socket entries = Some connection →
  P (socket, record) →
  (∀ other c, (other, c) ∈ entries → other ≠ socket → ¬ P (other, c)) →
  head (filter P (Map_set socket record entries)) = Some (socket, record).
Proof.
  intros Hget Hrecord Hothers.
  induction entries as [|[k c] entries IH]; simpl in *; [done|].
  destruct (decide (k = socket)) as [->|Hne].
  - rewrite filter_cons, decide_True by done. done.
  - rewrite filter_cons, decide_False.
    + apply IH; [done|]. intros other c' Hin. apply Hothers.
      apply elem_of_cons. by right.
    + apply Hothers; [|done]. apply elem_of_cons. by left.
Qed.

(** X17: the handshake feeds the routing: after a registered connection has
    joined with a non-empty id that no other connection carries, a frame
    addressed to that id is written to that connection, once, and to no
    other, provided its transport is open. *)
Theorem join_then_unicast (readyState : Transports) this socket message connection
    (joinMsg : JoinMessage) (m : Message) :
  Map_get socket (connections this) = Some connection →
  cbor_decode (buffer_of message) = Some (Join joinMsg) →
  join_senderId joinMsg ≠ "" →
  targetId m = Some (join_senderId joinMsg) →
  readyState socket = READY_STATE_OPEN →
  (∀ other c, (other, c) ∈ connections this → other ≠ socket →
     peerId c ≠ Some (join_senderId joinMsg)) →
  calls_of (send readyState m) (state_after (handleMessage socket message) this)
  = [WsSend socket (cbor_encode (EncMessage m))].
Proof.
  intros Hget Hdec Hne Htarget Hopen Hothers.
  unfold calls_of. rewrite (send_truthy_target _ _ _ _ Htarget Hne), send_to_first.
  unfold state_after. rewrite (handleMessage_join _ _ _ _ _ Hget Hdec). simpl.
  rewrite (head_filter_Map_set _ socket (record_join connection joinMsg) connection);
    try done.
  intros other c Hin Hother [Hid _]. by apply (Hothers other c).
Qed.

End RelayFurther.

(** ** Worked examples for the further properties *)

Section FurtherExamples.
Existing Instance sample_protocol.
Existing Instance sample_cbor.

Lemma handleMessage_forwards_witness :
  calls_of (handleMessage 1 (inr [Byte.x01; Byte.x07]))
    (state_after (addConnection 1) new)
  = [Emit (MessageEvent (sample_message None [Byte.x07]))].
Proof.
  destruct (handleMessage_forwards (state_after (addConnection 1) new) 1
              (inr [Byte.x01; Byte.x07])
              {| ws := 1; peerId := None; peerMetadata := None |})
    as [Hother _]; [reflexivity|].
  destruct (Hother (sample_message None [Byte.x07])) as (_ & Hcalls & _);
    [reflexivity|].
  exact Hcalls.
Defined.

Example null_frame_is_dropped :
  calls_of (handleMessage 1 (inr [Byte.xf6])) (state_after (addConnection 1) new)
  = [ConsoleError].
Proof. reflexivity. Qed.

Lemma any_frame_marks_ready_witness :
  isReady (state_after (handleMessage 1 (inr [Byte.xff]))
             (state_after (run [Connect "S" None; AddConnection 1]) new)) = true.
Proof.
  destruct (any_frame_marks_ready
              (state_after (run [Connect "S" None; AddConnection 1]) new) 1
              (inr [Byte.xff])
              {| ws := 1; peerId := None; peerMetadata := None |})
    as [Hready _]; [reflexivity|].
  apply (Hready "S"); [reflexivity|discriminate].
Defined.

Example not_ready_before_first_frame :
  isReady (state_after (run [Connect "S" None; AddConnection 1]) new) = false.
Proof. reflexivity. Qed.

Lemma join_then_unicast_witness :
  calls_of (send all_open (sample_message (Some "B") []))
    (state_after (handleMessage 2 joinB)
       (state_after (addConnection 2) one_joined))
  = [WsSend 2 (cbor_encode (EncMessage (sample_message (Some "B") [])))].
Proof.
  apply (join_then_unicast all_open (state_after (addConnection 2) one_joined)
           2 joinB {| ws := 2; peerId := None; peerMetadata := None |}
           {| join_senderId := "B"; join_peerMetadata := None;
              supportedProtocolVersions := ["1"] |}).
  - reflexivity.
  - reflexivity.
  - discriminate.
  - reflexivity.
  - reflexivity.
  - intros other c Hin Hother.
    apply elem_of_cons in Hin as [[= -> ->]|Hin]; [discriminate|].
    apply list_elem_of_singleton in Hin as [= -> ->]. done.
Defined.

End FurtherExamples.

(** * Properties of the server *)

Section ServerProperties.
Context {protocol : Protocol} {cbor : Cbor} {js : JsString}.
Implicit Types (host : Host) (socket : WebSocket).

Lemma on_adapter_run {A} (m : M A) host a :
  adapter (object host) = Some a →
  on_adapter m host
  = (completion_of m a,
     {| object := {| repo := repo (object host); adapter := Some (state_after m a) |};
        sockets := sockets host |},
     FromAdapter <$> calls_of m a).
Proof.
  intros Ha. unfold on_adapter, completion_of, state_after, calls_of.
  rewrite Ha. by destruct (m a) as [[r a'] out].
Qed.

Lemma run_op_keys op this :
  (∀ socket, op ≠ AddConnection socket) →
  ∀ h, h ∈ (connections (state_after (run_op op) this)).*1 →
       h ∈ (connections this).*1.
Proof.
  intros Hop h. unfold state_after.
  destruct op as [socket|socket|socket message|id metadata|readyState m|readyState];
    cbn [run_op].
  - by destruct (Hop socket).
  - rewrite removeConnection_result. simpl.
    intros [e [-> [_ Hin]%list_elem_of_filter]]%list_elem_of_fmap.
    by apply list_elem_of_fmap_2.
  - destruct (Map_get socket (connections this)) as [connection|] eqn:Hget.
    + destruct (cbor_decode (buffer_of message)) as [[joinMsg|m|]|] eqn:Hdec.
      * rewrite (handleMessage_join _ _ _ _ _ Hget Hdec). simpl.
        rewrite Map_set_keys, decide_True; [done|].
        apply Map_get_Some_elem in Hget.
        by apply (list_elem_of_fmap_2 fst _ (socket, connection)).
      * by rewrite (handleMessage_other _ _ _ _ _ Hget Hdec).
      * by rewrite (handleMessage_nullish _ _ _ _ Hget Hdec).
      * by rewrite (handleMessage_undecodable _ _ _ _ Hget Hdec).
    + by rewrite (handleMessage_unregistered _ _ _ Hget).
  - by rewrite connect_result.
  - destruct (send_state readyState m this) as [_ Hstate].
    unfold state_after in Hstate. by rewrite Hstate.
  - rewrite disconnect_result. simpl. by intros ?%elem_of_nil.
Qed.

(** An adapter call other than [addConnection], made on the server's
    adapter, keeps the server sound. *)
Lemma on_adapter_ok op host a :
  (∀ socket, op ≠ AddConnection socket) →
  host_ok host → adapter (object host) = Some a →
  host_completion (on_adapter (run_op op)) host = Normal ()
  ∧ host_ok (host_after (on_adapter (run_op op)) host).
Proof.
  intros Hop (Hboth & Heven & Hkeys & Hadapter) Ha.
  unfold host_completion, host_after. rewrite (on_adapter_run _ _ _ Ha). simpl.
  rewrite Ha in Hadapter. destruct Hadapter as [Hreg Hflag].
  destruct (run_op_step op a Hflag) as (Hc & Hflag' & _).
  split; [done|]. unfold host_ok, registry in *. simpl. rewrite Ha in *.
  split; [|split; [done|split]].
  - split; [|done]. by intros Hr%Hboth.
  - rewrite Forall_forall in Hkeys. apply Forall_forall. intros h Hh.
    apply Hkeys. by eapply run_op_keys.
  - split; [by apply registry_ok_step|done].
Qed.

Lemma fetch_plain request host :
  wantsWebSocket request = false →
  fetch request host
  = (Normal {| status := 200; body := Some "Automerge Repo Sync Server";
               contentType := Some "text/plain"; webSocket := None |},
     host, []).
Proof. intros Hw. unfold fetch. by rewrite Hw. Qed.

Lemma handleWebSocket_result request host :
  (repo (object host) = None ↔ adapter (object host) = None) →
  handleWebSocket request host
  = (Normal {| status := 101; body := None; contentType := None;
               webSocket := Some (sockets host) |},
     {| object :=
          {| repo := Some (default RepoObject (repo (object host)));
             adapter := Some (state_after (addConnection (S (sockets host)))
                                (adapter_or_new host)) |};
        sockets := S (S (sockets host)) |},
     AcceptWebSocket (S (sockets host))
     :: match repo (object host) with
        | Some _ => []
        | None => [ConstructRepo]
        end).
Proof.
  intros Hboth. destruct host as [[r a] n]; simpl in *.
  unfold handleWebSocket, initializeRepo, newWebSocketPair, on_adapter,
    this_object, set_object, host_call, host_throw, mbind, SM_bind, mret, SM_ret,
    adapter_or_new, state_after.
  simpl. destruct r as [r|]; simpl.
  - destruct a as [a|]; simpl; [done|]. by pose proof (proj2 Hboth eq_refl).
  - destruct a as [a|]; simpl; [|done]. by pose proof (proj1 Hboth eq_refl).
Qed.

Lemma host_ok_fresh : host_ok fresh_host.
Proof. unfold host_ok, fresh_host, registry. simpl. split_and!; try done. Qed.

Lemma registry_handles_below host h :
  host_ok host → h ∈ (registry host).*1 → Nat.odd h = true ∧ h < sockets host.
Proof.
  intros (_ & _ & Hkeys & _) Hh. rewrite Forall_forall in Hkeys. by apply Hkeys.
Qed.

Lemma registry_adapter_or_new host :
  connections (adapter_or_new host) = registry host.
Proof. unfold adapter_or_new, registry. by destruct (adapter (object host)). Qed.

Lemma adapter_or_new_ok host :
  host_ok host → registry_ok (adapter_or_new host) ∧ flag_sound (adapter_or_new host).
Proof.
  intros (_ & _ & _ & Hadapter). unfold adapter_or_new.
  destruct (adapter (object host)); simpl; [done|].
  split; [split; [apply NoDup_nil_2|constructor]|done].
Qed.

(** The socket an upgrade registers is new to the registry. *)
Lemma upgrade_socket_new host :
  host_ok host → Map_get (S (sockets host)) (registry host) = None.
Proof.
  intros Hok. apply Map_get_None. intros Hin.
  apply (registry_handles_below _ _ Hok) in Hin as [_ Hlt]. lia.
Qed.

Lemma handleWebSocket_ok request host :
  host_ok host → host_ok (host_after (handleWebSocket request) host).
Proof.
  intros Hok. pose proof Hok as (Hboth & Heven & Hkeys & _).
  unfold host_after. rewrite (handleWebSocket_result _ _ Hboth). simpl.
  destruct (adapter_or_new_ok _ Hok) as [Hreg Hflag].
  unfold host_ok, registry. simpl.
  unfold state_after. rewrite addConnection_result. simpl.
  rewrite registry_adapter_or_new.
  split; [|split; [|split; [|split]]].
  - split; intros; done.
  - done.
  - rewrite Map_set_keys, decide_False.
    + apply Forall_app. split.
      * eapply Forall_impl; [exact Hkeys|]. intros h [Hodd Hlt]. split; [done|lia].
      * apply Forall_singleton. split; [by rewrite Nat.odd_succ|lia].
    + apply Map_get_None. by apply upgrade_socket_new.
  - destruct Hreg as [Hnodup Hws]. rewrite registry_adapter_or_new in Hnodup, Hws.
    split; [by apply Map_set_NoDup|by apply Map_set_Forall].
  - destruct (run_op_step (AddConnection (S (sockets host))) _ Hflag)
      as (_ & Hflag' & _).
    unfold state_after in Hflag'. cbn [run_op] in Hflag'.
    rewrite addConnection_result in Hflag'. simpl in Hflag'.
    by rewrite registry_adapter_or_new in Hflag'.
Qed.

Lemma host_step_ok event host :
  host_ok host →
  host_completion (host_step event) host = Normal ()
  ∧ host_ok (host_after (host_step event) host).
Proof.
  intros Hok. pose proof Hok as (Hboth & _).
  unfold host_completion, host_after.
  destruct event as [request|socket message|socket code reason wasClean|socket
                    |id metadata|readyState m|readyState]; cbn [host_step].
  - unfold fetch. destruct (wantsWebSocket request) eqn:Hw.
    + pose proof (handleWebSocket_ok request host Hok) as Hok'.
      unfold host_after in Hok'. unfold mbind, SM_bind.
      rewrite (handleWebSocket_result _ _ Hboth) in *. simpl in *. done.
    + done.
  - unfold webSocketMessage, this_object, mbind, SM_bind. simpl.
    destruct (adapter (object host)) as [a|] eqn:Ha; [|done].
    destruct (on_adapter_ok (HandleMessage socket message) host a) as [Hc Hok'];
      try done.
    unfold host_completion, host_after in *. cbn [run_op] in *.
    destruct (on_adapter (handleMessage socket message) host) as [[c h'] out].
    simpl in *. by subst.
  - unfold webSocketClose, this_object, host_call, mbind, SM_bind. simpl.
    destruct (adapter (object host)) as [a|] eqn:Ha; [|done].
    destruct (on_adapter_ok (RemoveConnection socket) host a) as [Hc Hok'];
      try done.
    unfold host_completion, host_after in *. cbn [run_op] in *.
    destruct (on_adapter (removeConnection socket) host) as [[c h'] out].
    simpl in *. by subst.
  - done.
  - unfold by_repo, this_object, mbind, SM_bind. simpl.
    destruct (repo (object host)) as [r|] eqn:Hr; [|done].
    destruct (adapter (object host)) as [a|] eqn:Ha;
      [|by pose proof (proj2 Hboth eq_refl)].
    destruct (on_adapter_ok (Connect id metadata) host a) as [Hc Hok'];
      try done.
    unfold host_completion, host_after in *. cbn [run_op] in *.
    destruct (on_adapter (connect id metadata) host) as [[c h'] out].
    simpl in *. by subst.
  - unfold by_repo, this_object, mbind, SM_bind. simpl.
    destruct (repo (object host)) as [r|] eqn:Hr; [|done].
    destruct (adapter (object host)) as [a|] eqn:Ha;
      [|by pose proof (proj2 Hboth eq_refl)].
    destruct (on_adapter_ok (Send readyState m) host a) as [Hc Hok'];
      try done.
    unfold host_completion, host_after in *. cbn [run_op] in *.
    destruct (on_adapter (send readyState m) host) as [[c h'] out].
    simpl in *. by subst.
  - unfold by_repo, this_object, mbind, SM_bind. simpl.
    destruct (repo (object host)) as [r|] eqn:Hr; [|done].
    destruct (adapter (object host)) as [a|] eqn:Ha;
      [|by pose proof (proj2 Hboth eq_refl)].
    destruct (on_adapter_ok (Disconnect readyState) host a) as [Hc Hok'];
      try done.
    unfold host_completion, host_after in *. cbn [run_op] in *.
    destruct (on_adapter (disconnect readyState) host) as [[c h'] out].
    simpl in *. by subst.
Qed.

Lemma host_run_ok events host :
  host_ok host →
  host_completion (host_run events) host = Normal ()
  ∧ host_ok (host_after (host_run events) host).
Proof.
  revert host. induction events as [|event events IH]; intros host Hok; [done|].
  destruct (host_step_ok event host Hok) as [Hc Hok'].
  unfold host_completion, host_after in *. cbn [host_run].
  unfold mbind, SM_bind.
  destruct (host_step event host) as [[c h'] out]. simpl in *. subst c.
  destruct (IH h' Hok') as [Hc' Hok''].
  by destruct (host_run events h') as [[c' h''] out'].
Qed.

(** X18: over every sequence of requests, WebSocket events and repo calls
    on a newly constructed server, no method throws (the "Adapter not
    initialized" error included), the repo and the adapter exist together,
    and the registered handles are distinct server sides of pairs the runtime
    created, so a client side is never registered. *)
Theorem server_stays_sound (events : list HostEvent) :
  let host := host_after (host_run events) fresh_host in
  host_completion (host_run events) fresh_host = Normal ()
  ∧ (repo (object host) = None ↔ adapter (object host) = None)
  ∧ NoDup (registry host).*1
  ∧ (∀ h, h ∈ (registry host).*1 → Nat.odd h = true ∧ h < sockets host)
  ∧ Nat.even (sockets host) = true.
Proof.
  intros host. subst host.
  destruct (host_run_ok events fresh_host host_ok_fresh) as [Hc Hok].
  split; [done|]. pose proof Hok as (Hboth & Heven & Hkeys & Hadapter).
  split; [done|]. split; [|split; [|done]].
  - unfold registry in *.
    destruct (adapter (object (host_after (host_run events) fresh_host)));
      [|apply NoDup_nil_2].
    by destruct Hadapter as [[Hnodup _] _].
  - intros h Hh. by apply registry_handles_below.
Qed.

(** X19: on a server reached by any such sequence, [fetch] of a request
    that asks for no WebSocket answers 200 with the banner text and touches
    nothing (no repo is built); [fetch] of one that does answers 101 with
    the client side of a new pair, accepts the server side, builds the repo
    and the adapter only if there is none yet, and registers the server side
    as a new, unjoined connection after the ones already there. *)
Theorem fetch_upgrades (events : list HostEvent) (request : Request) :
  let host := host_after (host_run events) fresh_host in
  let host' := host_after (fetch request) host in
  (wantsWebSocket request = false →
   fetch request host
   = (Normal {| status := 200; body := Some "Automerge Repo Sync Server";
                contentType := Some "text/plain"; webSocket := None |},
      host, []))
  ∧ (wantsWebSocket request = true →
     host_completion (fetch request) host
     = Normal {| status := 101; body := None; contentType := None;
                 webSocket := Some (sockets host) |}
     ∧ host_calls (fetch request) host
       = AcceptWebSocket (S (sockets host))
         :: match repo (object host) with
            | Some _ => []
            | None => [ConstructRepo]
            end
     ∧ registry host'
       = registry host
         ++ [(S (sockets host),
              {| ws := S (sockets host); peerId := None; peerMetadata := None |})]
     ∧ repo (object host') ≠ None
     ∧ sockets host' = S (S (sockets host))).
Proof.
  intros host host'. subst host'. split; [apply fetch_plain|].
  intros Hw.
  destruct (host_run_ok events fresh_host host_ok_fresh) as [_ Hok].
  fold host in Hok. clearbody host.
  pose proof Hok as (Hboth & _).
  unfold host_completion, host_calls, host_after, fetch. rewrite Hw.
  rewrite (handleWebSocket_result _ _ Hboth). cbn [fst snd].
  split_and!; try done.
  unfold registry at 1. cbn [object adapter]. unfold state_after.
  rewrite addConnection_result. cbn [fst snd connections].
  rewrite registry_adapter_or_new.
  apply Map_set_absent. by apply upgrade_socket_new.
Qed.

(** X20: [webSocketClose] unregisters the connection, leaves the others
    alone and then closes the transport with the code and reason it was
    given, also when no adapter exists yet; a frame that arrives on that
    transport afterwards is ignored: nothing is called and nothing changes.
    [webSocketError] only logs. *)
Theorem webSocketClose_then_ignored host socket (code : nat) (reason : string)
    (wasClean : bool) :
  let host' := host_after (webSocketClose socket code reason wasClean) host in
  host_completion (webSocketClose socket code reason wasClean) host = Normal ()
  ∧ host_calls (webSocketClose socket code reason wasClean) host
    = [CloseWith socket code reason]
  ∧ Map_get socket (registry host') = None
  ∧ (∀ other, other ≠ socket →
       Map_get other (registry host') = Map_get other (registry host))
  ∧ sockets host' = sockets host
  ∧ repo (object host') = repo (object host)
  ∧ (∀ message,
       webSocketMessage socket message host' = (Normal (), host', []))
  ∧ webSocketError socket host = (Normal (), host, [ServerConsoleError]).
Proof.
  intros host'. subst host'.
  unfold host_completion, host_calls, host_after, webSocketClose, this_object,
    host_call, mbind, SM_bind. simpl.
  destruct host as [[r [a|]] n]; simpl.
  - unfold on_adapter at 1 2 3 4 5 6 7. simpl.
    rewrite removeConnection_result. simpl. unfold registry. simpl.
    split_and!; try done.
    + apply Map_delete_get_eq.
    + intros other Hne. by apply Map_delete_get_ne.
    + intros message. unfold webSocketMessage, this_object, mbind, SM_bind. simpl.
      unfold on_adapter. simpl.
      rewrite handleMessage_unregistered by (simpl; apply Map_delete_get_eq).
      unfold on_adapter. simpl. by rewrite removeConnection_result.
  - by split_and!.
Qed.

End ServerProperties.

(** ** Worked examples for the server *)

Section ServerExamples.
Existing Instance sample_protocol.
Existing Instance sample_cbor.
Existing Instance sample_js.

Example upgrade_header_any_case :
  wantsWebSocket {| upgradeHeader := Some "WebSocket"; wsParam := None |} = true
  ∧ wantsWebSocket {| upgradeHeader := None; wsParam := Some "" |} = true
  ∧ wantsWebSocket {| upgradeHeader := Some "h2c"; wsParam := None |} = false
  ∧ wantsWebSocket {| upgradeHeader := None; wsParam := None |} = false.
Proof. split_and!; reflexivity. Qed.

Example two_upgrades_then_close :
  let upgrade := Fetch {| upgradeHeader := Some "websocket"; wsParam := None |} in
  host_calls (host_run [upgrade; upgrade; WebSocketMessage 1 joinA;
                        WebSocketClose 3 1000 "bye" true]) fresh_host
  = [AcceptWebSocket 1; ConstructRepo; AcceptWebSocket 3;
     FromAdapter (Emit (PeerCandidate "A" [])); CloseWith 3 1000 "bye"]
  ∧ registry (host_after (host_run [upgrade; upgrade; WebSocketMessage 1 joinA;
                                    WebSocketClose 3 1000 "bye" true]) fresh_host)
    = [(1, {| ws := 1; peerId := Some "A"; peerMetadata := None |})].
Proof. split; reflexivity. Qed.

End ServerExamples.
